(** * tracepath: cable graph, path finder and route planner

    A shallow embedding of [frontend/src/graphUtils.js] and of the route
    planning part of [frontend/src/App.jsx] ([animateTrace], [animateLine]).

    - A JavaScript number is an IEEE 754 binary64 value: Rocq's primitive
      [float].  [Number.prototype.toFixed] is written out over the exact
      value [m * 2^e] that [Prim2SF] decodes.
    - [graph] is a JavaScript object used as a map from coordinate keys to
      arrays of edges and is only ever read by key: a [gmap string (list Edge)].
      Keys are coordinate keys; the properties that a JavaScript object
      inherits from its prototype are not among them.
    - [coordMap] is iterated with [for ... in], so its insertion order is
      observable: an association list with in-place overwrite.
    - [haversineDistance] needs [Math.sin], [Math.cos] and [Math.atan2], which
      have no counterpart on primitive floats; it is a [Variable] of the
      section that holds the code calling it, so every result there holds for
      whatever function computes the distance.
    - [animateTrace] is an async function whose effect is a sequence of calls
      of [animateLine]; it is embedded as the function from its inputs to
      that sequence, and [play] applies such a sequence to the map.
    - The component itself is a transition system over its callbacks
      ([App.step]): form, event source, style selector, map load, the
      animation button, and the resumption of a suspended [animateTrace].
      Each [new mapboxgl.Map] is a map of its own, and a run keeps the map
      it started on.

    The definitions come first, the theorems after them: first those that
    settle the properties the design states, then further properties of the
    same functions (nearest-landing search, graph builder, path finder,
    planner rounds, layer ids, keys). *)

From Stdlib Require Import ZArith Ascii Floats.PrimFloat Floats.SpecFloat
  Floats.FloatOps Floats.FloatAxioms.
From stdpp Require Import gmap strings list pretty.

Set Warnings "-inexact-float".

(** ** Numbers *)

Module JsNumber.

(** [x !== x], the only way a double differs from itself. *)
Definition isNaN (x : float) : bool := negb (PrimFloat.eqb x x).

(** Truthiness of a number: [0], [-0] and [NaN] are falsy. *)
Definition truthy (x : float) : bool :=
  negb (PrimFloat.eqb x 0%float) && negb (isNaN x).

(** Truthiness of a property that may be [undefined]. *)
Definition truthyOpt (o : option float) : bool :=
  match o with
  | Some x => truthy x
  | None => false
  end.

(** [x < 0] on the mathematical value, as step 9 of [toFixed] tests it. *)
Definition isNegative (x : float) : bool :=
  match Prim2SF x with
  | S754_finite s _ _ => s
  | S754_infinity s => s
  | S754_zero _ => false
  | S754_nan => false
  end.

(** The integer [n] for which [n / 10^f - m * 2^e] is as close to zero as
    possible, the larger one when there are two. *)
Definition nearest (f : nat) (m : positive) (e : Z) : Z :=
  let scale := (10 ^ Z.of_nat f)%Z in
  if (0 <=? e)%Z then (Z.pos m * 2 ^ e * scale)%Z
  else ((2 * Z.pos m * scale + 2 ^ (- e)) / 2 ^ (1 - e))%Z.

Fixpoint zeros (k : nat) : string :=
  match k with
  | O => ""
  | S k' => "0" +:+ zeros k'
  end.

(** Steps 11.b to 11.d of [toFixed]: the digits of [n], left-padded with
    zeros to [f + 1] characters, with a point before the last [f]. *)
Definition fixedDigits (f : nat) (n : Z) : string :=
  let m := pretty (Z.to_N n) in
  let m := if (String.length m <=? f)%nat
           then zeros (f + 1 - String.length m) +:+ m else m in
  let k := String.length m in
  match f with
  | O => m
  | _ => String.substring 0 (k - f) m +:+ "." +:+ String.substring (k - f) f m
  end.

(** [x.toFixed(f)].  Above [10^21] in magnitude ECMAScript falls back to
    [Number::toString]; degrees of longitude and latitude stay far below,
    and the fall-back is not part of this model. *)
Definition toFixed (f : nat) (x : float) : string :=
  match Prim2SF x with
  | S754_nan => "NaN"
  | S754_infinity s => if s then "-Infinity" else "Infinity"
  | S754_zero _ => fixedDigits f 0
  | S754_finite s m e =>
      (if s then "-" else "") +:+ fixedDigits f (nearest f m e)
  end.

(** The value a finite number rounds to at [f] decimal places, in units of
    [10^-f]: what "rounding to a fixed decimal precision" means for the
    number itself, before it is printed. *)
Definition roundedTo (f : nat) (x : float) : option Z :=
  match Prim2SF x with
  | S754_zero _ => Some 0%Z
  | S754_finite s m e =>
      Some (if s then (- nearest f m e)%Z else nearest f m e)
  | _ => None
  end.

End JsNumber.

(** ** Coordinates and keys *)

(** A GeoJSON position [[lon, lat]]. *)
Definition Coord : Type := float * float.

(** The [{ lat, lon }] objects that [haversineDistance] takes. *)
Record LatLon := mkLatLon { lat : float; lon : float }.

(** [const coordKey = ([lon, lat]) => `${lon.toFixed(3)},${lat.toFixed(3)}`],
    defined alike in graphUtils.js and in App.jsx. *)
Definition coordKey (c : Coord) : string :=
  JsNumber.toFixed 3 c.1 +:+ "," +:+ JsNumber.toFixed 3 c.2.

(** ** The cable graph *)

(** One entry of [graph[key]]: [{ to, cableName, geometry }]. *)
Record Edge := mkEdge {
  to : string;
  cableName : string;
  geometry : list Coord
}.

(** [graph]: coordinate key to the array of edges that leave it. *)
Abbreviation Graph := (gmap string (list Edge)).

(** [u] has an outgoing edge to [v]. *)
Definition hasEdge (graph : Graph) (u v : string) : Prop :=
  exists es e, graph !! u = Some es /\ e ∈ es /\ to e = v.

(** [p] lists the vertices of a walk from [s] to [e], each joined to the next
    by an edge of the graph. *)
Inductive isPath (graph : Graph) : string -> string -> list string -> Prop :=
| isPath_here s : isPath graph s s [s]
| isPath_step s m e p :
    hasEdge graph s m -> isPath graph m e p -> isPath graph s e (s :: p).

(** [e] can be reached from [s] along edges of the graph. *)
Definition reachable (graph : Graph) (s e : string) : Prop :=
  rtc (hasEdge graph) s e.

(** ** Path finder *)

(** The body of [for (const edge of graph[start] || [])], with the recursive
    call abstracted as [recur].  The outer [None] says that the recursion
    below ran out of fuel, [Some None] is JavaScript's [null]. *)
Fixpoint forEdges (visited : gset string)
    (recur : string -> option (option (list string)))
    (start : string) (edges : list Edge) : option (option (list string)) :=
  match edges with
  | [] => Some None
  | edge :: rest =>
      if decide (to edge ∈ visited) then forEdges visited recur start rest
      else
        match recur (to edge) with
        | None => None
        | Some (Some path) => Some (Some (start :: path))
        | Some None => forEdges visited recur start rest
        end
  end.

(** [findCablePathDFS(graph, start, end, visited)] with an explicit bound on
    the recursion depth.  [visited.add(start)] followed by
    [new Set(visited)] at every recursive call: each call receives its own
    copy of [visited ∪ {start}]. *)
Fixpoint dfs (fuel : nat) (graph : Graph) (start end_ : string)
    (visited : gset string) : option (option (list string)) :=
  match fuel with
  | O => None
  | S fuel' =>
      if decide (start = end_) then Some (Some [start])
      else if decide (start ∈ visited) then Some None
      else
        let visited := visited ∪ {[start]} in
        forEdges visited (fun next => dfs fuel' graph next end_ visited)
          start (default [] (graph !! start))
  end.

(** A call can only recurse from a vertex that has edges and is added to
    [visited], so one more level than the graph has keys is always enough
    ([dfs_enough_fuel] below). *)
Definition findCablePathDFS (graph : Graph) (start end_ : string)
    (visited : gset string) : option (list string) :=
  default None (dfs (S (size (dom graph))) graph start end_ visited).

(** The search as the design describes it: try the outgoing edges in stored
    order and keep the first success. *)
Fixpoint firstFound {A B : Type} (f : A -> option B) (l : list A) : option B :=
  match l with
  | [] => None
  | x :: rest =>
      match f x with
      | Some y => Some y
      | None => firstFound f rest
      end
  end.

Definition mkG (l : list (string * list (string * string))) : Graph :=
  list_to_map (prod_map id (map (fun p => mkEdge p.1 p.2 [])) <$> l).

(** A triangle whose first stored edge out of "A" is the detour through "B". *)
Definition triangle : Graph :=
  mkG [("A", [("B", "ab"); ("C", "ac")]);
       ("B", [("A", "ab"); ("C", "bc")]);
       ("C", [("A", "ac"); ("B", "bc")])].

(** ** Datasets *)

(** A feature of landings.json: [geometry.coordinates] and [properties.name]. *)
Record Landing := mkLanding {
  landingCoordinates : Coord;
  landingName : string
}.

(** [cable.geometry]: its [type] and [coordinates]. *)
Inductive Geometry :=
| LineString (coordinates : list Coord)
| MultiLineString (coordinates : list (list Coord))
| OtherGeometry.

(** A feature of cables.json: [geometry] and [properties.name]. *)
Record Cable := mkCable {
  cableGeometry : Geometry;
  cableProperName : string
}.

(** What [findClosestLanding] returns: [{ key, coord, name }]. *)
Record ClosestLanding := mkClosest {
  key : string;
  coord : Coord;
  name : string
}.

(** [coordMap]: a JavaScript object, enumerated by [for ... in] in the order
    in which its keys were first assigned (coordinate keys are never integer
    indices). *)
Abbreviation CoordMap := (list (string * Coord)).

(** [coordMap[k] = v]: overwrite in place, or append a new key. *)
Fixpoint coordMapSet (k : string) (v : Coord) (m : CoordMap) : CoordMap :=
  match m with
  | [] => [(k, v)]
  | (k', v') :: rest =>
      if decide (k' = k) then (k, v) :: rest
      else (k', v') :: coordMapSet k v rest
  end.

(** [coordMap[k]]. *)
Fixpoint coordMapGet (k : string) (m : CoordMap) : option Coord :=
  match m with
  | [] => None
  | (k', v') :: rest => if decide (k' = k) then Some v' else coordMapGet k rest
  end.

(** The flattening of the cable's geometry at the head of the loop body. *)
Definition cableCoordinates (geometry : Geometry) : list Coord :=
  match geometry with
  | LineString coordinates => coordinates
  | MultiLineString coordinates => concat coordinates
  | OtherGeometry => []
  end.

(** [graph[k].push(edge)] on a key that is present. *)
Definition pushEdge (k : string) (edge : Edge) (graph : Graph) : Graph :=
  alter (fun edges => edges ++ [edge]) k graph.

(** [if (!graph[k]) graph[k] = []]. *)
Definition ensureKey (k : string) (graph : Graph) : Graph :=
  match graph !! k with
  | Some _ => graph
  | None => <[k := []]> graph
  end.

Definition PROXIMITY_THRESHOLD : float := 50%float.

(** ** Hops and drawn segments *)

(** A record of the hop stream; [lat] and [lon] are absent when the lookup
    of the address gave none. *)
Record Hop := mkHop {
  hopIp : string;
  hopLat : option float;
  hopLon : option float
}.

(** One call of [animateLine] that draws: the layer id and the line. *)
Record Segment := mkSegment {
  segmentId : string;
  segmentCoords : list Coord
}.

(** [animateLine(coords, map, id)], reduced to what it puts on the map: the
    layer [id] with the line [coords], or nothing when the guard returns. *)
Definition animateLine (coords : list Coord) (id : string) : list Segment :=
  if (length coords <? 2)%nat then [] else [mkSegment id coords].

(** The number held by a property that the guard of the loop found truthy. *)
Definition numberOf (o : option float) : float := default nan o.

(** [[hop.lon, hop.lat]]. *)
Definition hopCoord (h : Hop) : Coord := (numberOf (hopLon h), numberOf (hopLat h)).

(** [a.lat && a.lon && b.lat && b.lon]. *)
Definition pairHasCoordinates (a b : Hop) : bool :=
  JsNumber.truthyOpt (hopLat a) && JsNumber.truthyOpt (hopLon a) &&
  JsNumber.truthyOpt (hopLat b) && JsNumber.truthyOpt (hopLon b).

(** The marker loop of the map effect tests
    [typeof hop.lat === 'number' && typeof hop.lon === 'number']. *)
Definition hasMarker (h : Hop) : bool :=
  bool_decide (is_Some (hopLat h)) && bool_decide (is_Some (hopLon h)).

(** [for (let i = 0; i < hops.length - 1; i++)] over [a = hops[i]] and
    [b = hops[i + 1]]; [body] returns the segments drawn in one round. *)
Definition forPairs (hops : list Hop) (body : nat -> Hop -> Hop -> list Segment)
    : list Segment :=
  flat_map
    (fun i =>
       match hops !! i, hops !! (i + 1) with
       | Some a, Some b => body i a b
       | _, _ => []
       end)
    (seq 0 (length hops - 1)).

(** The body of the fall-back loop: one direct line per pair. *)
Definition directLine (i : nat) (a b : Hop) : list Segment :=
  if pairHasCoordinates a b
  then animateLine [hopCoord a; hopCoord b] ("direct-" +:+ pretty i)
  else [].

(** The loop over [path] that draws the stored geometry of each cable leg. *)
Definition cableLegs (graph : Graph) (i : nat) (path : list string) : list Segment :=
  flat_map
    (fun j =>
       match path !! j, path !! (j + 1) with
       | Some from, Some next =>
           match graph !! from ≫= List.find (fun e => bool_decide (to e = next)) with
           | Some edge =>
               animateLine (geometry edge)
                 ("cable-" +:+ pretty i +:+ "-" +:+ pretty j)
           | None => []
           end
       | _, _ => []
       end)
    (seq 0 (length path - 1)).

Section Routing.

(** [haversineDistance(a, b)], defined alike in graphUtils.js and App.jsx. *)
Variable haversineDistance : LatLon -> LatLon -> float.

(** The callback of the [forEach] in [findClosestLanding]; the variables it
    assigns are the pair [(closest, minDist)]. *)
Definition closerLanding (coord : Coord)
    (state : option ClosestLanding * float) (landing : Landing)
    : option ClosestLanding * float :=
  let landingCoord := landingCoordinates landing in
  let dist := haversineDistance
                (mkLatLon coord.2 coord.1)
                (mkLatLon landingCoord.2 landingCoord.1) in
  if PrimFloat.ltb dist state.2 && PrimFloat.ltb dist PROXIMITY_THRESHOLD
  then (Some (mkClosest (coordKey landingCoord) landingCoord
                (landingName landing)), dist)
  else state.

(** The helper of [buildCableGraph]. *)
Definition findClosestLanding (landings : list Landing) (coord : Coord)
    : option ClosestLanding :=
  (fold_left (closerLanding coord) landings (None, infinity)).1.

(** The body of [cables.features.forEach]. *)
Definition addCable (landings : list Landing) (graph : Graph) (cable : Cable)
    : Graph :=
  let coordinates := cableCoordinates (cableGeometry cable) in
  if (length coordinates <? 2)%nat then graph
  else
    match head coordinates, last coordinates with
    | Some startCoord, Some endCoord =>
        match findClosestLanding landings startCoord,
              findClosestLanding landings endCoord with
        | Some startLanding, Some endLanding =>
            if decide (key startLanding <> key endLanding) then
              let graph := ensureKey (key startLanding) graph in
              let graph := ensureKey (key endLanding) graph in
              let graph :=
                pushEdge (key startLanding)
                  (mkEdge (key endLanding) (cableProperName cable) coordinates)
                  graph in
              pushEdge (key endLanding)
                (mkEdge (key startLanding) (cableProperName cable)
                   (reverse coordinates))
                graph
            else graph
        | _, _ => graph
        end
    | _, _ => graph
    end.

Definition buildCableGraph (cables : list Cable) (landings : list Landing)
    : Graph * CoordMap :=
  let coordMap :=
    fold_left
      (fun coordMap landing =>
         let coords := landingCoordinates landing in
         coordMapSet (coordKey coords) coords coordMap)
      landings [] in
  let graph := fold_left (addCable landings) cables ∅ in
  (graph, coordMap).

(** The body of the [for ... in] of [getClosestCoordKey], on the pair
    [(closest, minDist)]. *)
Definition closerKey (p : LatLon) (state : option string * float)
    (entry : string * Coord) : option string * float :=
  let coord := entry.2 in
  let dist := haversineDistance p (mkLatLon coord.2 coord.1) in
  if PrimFloat.ltb dist state.2 then (Some entry.1, dist) else state.

(** [getClosestCoordKey({ lat, lon })]: [{ key: closest, distance: minDist }]. *)
Definition getClosestCoordKey (coordMap : CoordMap) (p : LatLon)
    : option string * float :=
  fold_left (closerKey p) coordMap (None, infinity).

(** [!closest.key || !coordMap[closest.key]] negated: the key is a non-empty
    string with an entry in [coordMap]. *)
Definition resolvedCoord (coordMap : CoordMap) (closest : option string * float)
    : option (string * Coord) :=
  match closest.1 with
  | Some k =>
      if decide (k = "") then None
      else (fun c => (k, c)) <$> coordMapGet k coordMap
  | None => None
  end.

(** The body of the main loop of [animateTrace]. *)
Definition routePair (graph : Graph) (coordMap : CoordMap)
    (i : nat) (a b : Hop) : list Segment :=
  if negb (pairHasCoordinates a b) then []
  else
    let closestA := getClosestCoordKey coordMap
                      (mkLatLon (numberOf (hopLat a)) (numberOf (hopLon a))) in
    let closestB := getClosestCoordKey coordMap
                      (mkLatLon (numberOf (hopLat b)) (numberOf (hopLon b))) in
    match resolvedCoord coordMap closestA, resolvedCoord coordMap closestB with
    | Some (keyA, coordA), Some (keyB, coordB) =>
        animateLine [hopCoord a; coordA] ("to-" +:+ pretty i)
        ++ match findCablePathDFS graph keyA keyB ∅ with
           | Some path =>
               if (1 <? length path)%nat then cableLegs graph i path
               else animateLine [coordA; coordB] ("fallback-sea-" +:+ pretty i)
           | None => animateLine [coordA; coordB] ("fallback-sea-" +:+ pretty i)
           end
        ++ animateLine [coordB; hopCoord b] ("from-" +:+ pretty i)
    | _, _ => animateLine [hopCoord a; hopCoord b] ("fallback-" +:+ pretty i)
    end.

(** [animateTrace], from the loaded datasets ([features] of each, empty when
    the fetch failed) and the hops to the segments it draws, in order.  The
    map is taken to be there and ready: of the first guard only
    [hops.length < 2] is kept. *)
Definition animateTrace (cables : list Cable) (landings : list Landing)
    (hops : list Hop) : list Segment :=
  if (length hops <? 2)%nat then []
  else if (length cables =? 0)%nat || (length landings =? 0)%nat
  then forPairs hops directLine
  else
    let '(graph, coordMap) := buildCableGraph cables landings in
    forPairs hops (routePair graph coordMap).

End Routing.

(** ** The map as a drawing surface *)

(** Modelled from the spec: the Mapbox map, which is not part of the
    repository, as the drawing surface of named line layers that the design
    describes.  It holds what [animateLine] can observe and change: the
    GeoJSON line sources by id and, for each layer id, the id of its source.
    Paint properties, which the animation frames update, are left out. *)
Record MapSurface := mkSurface {
  sources : gmap string (list Coord);
  layers : gmap string string
}.

Definition emptySurface : MapSurface := mkSurface ∅ ∅.

(** Modelled from the spec: the four operations of the surface that
    [animateLine] calls; each adds or removes the one named entry. *)
Definition removeLayer (id : string) (map : MapSurface) : MapSurface :=
  mkSurface (sources map) (delete id (layers map)).

Definition removeSource (id : string) (map : MapSurface) : MapSurface :=
  mkSurface (delete id (sources map)) (layers map).

Definition addSource (id : string) (coords : list Coord) (map : MapSurface)
    : MapSurface :=
  mkSurface (<[id := coords]> (sources map)) (layers map).

Definition addLayer (id source : string) (map : MapSurface) : MapSurface :=
  mkSurface (sources map) (<[id := source]> (layers map)).

(** The synchronous part of a call of [animateLine] that passed its guard:
    remove the layer and the source with this id if they exist, then add
    both.  The frames that follow only set a paint property. *)
Definition drawSegment (map : MapSurface) (segment : Segment) : MapSurface :=
  let id := segmentId segment in
  let map := if decide (is_Some (layers map !! id)) then removeLayer id map
             else map in
  let map := if decide (is_Some (sources map !! id)) then removeSource id map
             else map in
  addLayer id id (addSource id (segmentCoords segment) map).

(** The surface after the calls of [animateLine] in [segments], in order. *)
Definition play (segments : list Segment) (map : MapSurface) : MapSurface :=
  fold_left drawSegment segments map.

(** The line most recently drawn under [id] in a sequence of calls. *)
Fixpoint lastDrawn (id : string) (segments : list Segment) : option (list Coord) :=
  match segments with
  | [] => None
  | segment :: rest =>
      match lastDrawn id rest with
      | Some line => Some line
      | None =>
          if decide (segmentId segment = id) then Some (segmentCoords segment)
          else None
      end
  end.


(** ** Vocabulary of the graph invariants *)

Section GraphVocabulary.

Variable haversineDistance : LatLon -> LatLon -> float.
Variable landings : list Landing.

(** A cable passes the test of the loop body: both ends have a closest
    landing within the threshold, under two different keys. *)
Definition inserted (cable : Cable) (ks ke : string) : Prop :=
  let coordinates := cableCoordinates (cableGeometry cable) in
  exists startCoord endCoord startLanding endLanding,
    head coordinates = Some startCoord /\
    last coordinates = Some endCoord /\
    findClosestLanding haversineDistance landings startCoord = Some startLanding /\
    findClosestLanding haversineDistance landings endCoord = Some endLanding /\
    key startLanding = ks /\ key endLanding = ke /\ ks <> ke.

(** Every edge has its reverse. *)
Definition symmetric (graph : Graph) : Prop :=
  forall u v cable G edges,
    graph !! u = Some edges -> mkEdge v cable G ∈ edges ->
    exists edges', graph !! v = Some edges' /\ mkEdge u cable (reverse G) ∈ edges'.

(** The edge list under [k] holds an edge that a cable of the dataset put
    there, and [k] is the key of the landing that one end of that cable
    resolved to; the other end resolved to the edge's target. *)
Definition hasCableEdge (cables : list Cable) (k : string) (edges : list Edge)
    : Prop :=
  exists cable edge,
    cable ∈ cables /\ edge ∈ edges /\
    cableName edge = cableProperName cable /\
    (inserted cable k (to edge) \/ inserted cable (to edge) k).

Definition keysAreEndpoints (cables : list Cable) (graph : Graph) : Prop :=
  forall k edges, graph !! k = Some edges -> hasCableEdge cables k edges.

End GraphVocabulary.

(** ** Sample data *)

(** A distance on the plane, 111 km to the degree.  It stands in for
    [haversineDistance] wherever the planner is run on the sample data
    below; no theorem about the planner depends on it. *)
Definition flatDistance (a b : LatLon) : float :=
  (111 * sqrt ((lat b - lat a) * (lat b - lat a)
               + (lon b - lon a) * (lon b - lon a)))%float.

Definition alpha : Landing := mkLanding (10.0001, 20.0001)%float "Alpha".
Definition beta : Landing := mkLanding (55.5, 21.25)%float "Beta".
Definition gamma : Landing := mkLanding (100, -5)%float "Gamma".

(** A cable from near Alpha to near Beta, and one in two parts from near
    Beta to near Gamma. *)
Definition cableAB : Cable :=
  mkCable (LineString [(10.01, 20.01); (30, 25); (55.4, 21.2)]%float) "AB".
Definition cableBG : Cable :=
  mkCable (MultiLineString [[(55.5, 21.3); (70, 0)];
                            [(80, -2); (100.1, -5)]]%float) "BG".

Definition keyAlpha : string := "10.000,20.000".
Definition keyBeta : string := "55.500,21.250".
Definition keyGamma : string := "100.000,-5.000".

Definition hopAtAlpha : Hop :=
  mkHop "192.0.2.1" (Some 20.0001%float) (Some 10.0001%float).
Definition hopAtBeta : Hop :=
  mkHop "192.0.2.2" (Some 21.25%float) (Some 55.5%float).
Definition hopNearGamma : Hop :=
  mkHop "192.0.2.3" (Some (-4)%float) (Some 99%float).
Definition hopUnlocated : Hop := mkHop "10.0.0.1" None None.

(** A hop on the equator and one north of it, on the same meridian. *)
Definition hopOnEquator : Hop :=
  mkHop "192.0.2.10" (Some 0%float) (Some 10%float).
Definition hopNorth : Hop := mkHop "192.0.2.11" (Some 5%float) (Some 10%float).

(** Two landings, the first on the equator, and the cable between them. *)
Definition equatorLanding : Landing := mkLanding (10, 0)%float "Equator".
Definition farLanding : Landing := mkLanding (55, 20)%float "Far".
Definition equatorCable : Cable :=
  mkCable (LineString [(10, 0); (55, 20)]%float) "Equatorial".
Definition hopAtFar : Hop := mkHop "192.0.2.12" (Some 20%float) (Some 55%float).

(** Two islands, two landings each, no cable between the islands. *)
Definition islands : Graph :=
  mkG [("A", [("B", "ab")]); ("B", [("A", "ab")]);
       ("C", [("D", "cd")]); ("D", [("C", "cd")])].


(** ** Vocabulary of the further properties *)

(** The landings of the dataset whose coordinate has the key [k], in
    dataset order. *)
Definition landingsWithKey (k : string) (landings : list Landing)
    : list Landing :=
  filter (fun landing => coordKey (landingCoordinates landing) = k) landings.

(** [edge], found under the key [k], is what [cable] put there: it carries
    the cable's name, and either the cable runs from [k] to the edge's
    target and the edge has the cable's flattened coordinates, or the cable
    runs the other way and the edge has them reversed. *)
Definition edgeOfCable (haversineDistance : LatLon -> LatLon -> float)
    (landings : list Landing) (cable : Cable) (k : string) (edge : Edge)
    : Prop :=
  cableName edge = cableProperName cable /\
  (inserted haversineDistance landings cable k (to edge) /\
   geometry edge = cableCoordinates (cableGeometry cable)
   \/
   inserted haversineDistance landings cable (to edge) k /\
   geometry edge = reverse (cableCoordinates (cableGeometry cable))).

(** Every edge of the graph was put there by a cable of the dataset. *)
Definition edgesFromCables (haversineDistance : LatLon -> LatLon -> float)
    (landings : list Landing) (cables : list Cable) (graph : Graph) : Prop :=
  forall k edges edge,
    graph !! k = Some edges -> edge ∈ edges ->
    exists cable, cable ∈ cables /\
      edgeOfCable haversineDistance landings cable k edge.

(** The decimal digits. *)
Definition isDigit (c : Ascii.ascii) : bool :=
  let n := Ascii.nat_of_ascii c in (48 <=? n)%nat && (n <=? 57)%nat.

Fixpoint digitsOnly (s : string) : bool :=
  match s with
  | EmptyString => true
  | String c rest => isDigit c && digitsOnly rest
  end.

(** Whether the character [c] occurs in [s]. *)
Fixpoint hasChar (c : ascii) (s : string) : bool :=
  match s with
  | EmptyString => false
  | String c' rest => bool_decide (c' = c) || hasChar c rest
  end.

(** The number that a string of decimal digits writes. *)
Fixpoint decimalFrom (acc : N) (s : string) : N :=
  match s with
  | EmptyString => acc
  | String c rest => decimalFrom (10 * acc + N.of_nat (nat_of_ascii c - 48)) rest
  end.

Definition decimalValue (s : string) : N := decimalFrom 0 s.

(** The frames of [animateLine] after the layer is added: [animate]
    increments [offset], sets the dash array [[2, 4 + (offset % 20)]] and
    asks for another frame while [offset < 40], else resolves the promise.
    The result lists the dash arrays set, in order; [None] says the bound on
    the number of frames [fuel] was reached before the promise resolved. *)
Fixpoint animateFrames (fuel offset : nat) : option (list (nat * nat)) :=
  match fuel with
  | O => None
  | S fuel' =>
      let offset := offset + 1 in
      let dash := (2, 4 + offset mod 20) in
      if (offset <? 40)%nat then cons dash <$> animateFrames fuel' offset
      else Some [dash]
  end.
(** ** The component: traces, maps and animations in flight *)

Module App.

(** A call of [animateTrace] that passed its first guard: the map it read
    from [mapInstanceRef.current] on entry, by its number in order of
    creation, and the calls of [animateLine] it has still to make.  Between
    two of these calls the function is suspended in an [await]. *)
Record Run := mkRun {
  runMap : nat;
  pending : list Segment
}.

(** The state of the component that decides what is drawn where: [hops],
    [loading] and [mapReady] of [useState], the map that
    [mapInstanceRef.current] refers to, every map made by
    [new mapboxgl.Map] so far, and every call of [animateTrace] so far. *)
Record State := mkState {
  hops : list Hop;
  loading : bool;
  mapReady : bool;
  mapInstance : option nat;
  maps : list MapSurface;
  runs : list Run
}.

(** The component as mounted: no hops, no map yet. *)
Definition mounted : State := mkState [] false false None [] [].

(** What can happen to the component, one callback at a time: the form is
    submitted ([fetchTraceroute]); the event source delivers a hop or ends
    (['end'] or [onerror]); another map style is chosen; the map fires
    ['load']; the button "Start Trace Animation" is clicked and the two
    fetches of [animateTrace] resolve to the given features (none for a
    fetch that failed); a suspended run resumes and makes its next call of
    [animateLine]; a call on the map throws inside a run. *)
Inductive Event :=
| FetchTraceroute
| HopArrives (hop : Hop)
| TraceEnds
| StyleChanges
| MapLoads
| StartAnimation (cables : list Cable) (landings : list Landing)
| AnimateLine (run : nat)
| CallFails (run : nat).

(** The effect on [[hops, mapStyleKey]]: nothing without hops; otherwise the
    map in [mapInstanceRef.current] is removed and a new one, without any
    line of a trace, takes its place.  A removed map is one that
    [mapInstance] no longer refers to. *)
Definition mapEffect (s : State) : State :=
  match hops s with
  | [] => s
  | _ :: _ =>
      mkState (hops s) (loading s) (mapReady s) (Some (length (maps s)))
        (maps s ++ [emptySurface]) (runs s)
  end.

Section Steps.

Variable haversineDistance : LatLon -> LatLon -> float.

(** One callback, or [None] when it cannot happen in this state: a hop
    arrives only from an open event source, the button is there only when
    [loading] is false and enabled only when [mapReady && hops.length >= 2],
    and [animateTrace] returns at once without a map.  Nothing in
    [animateTrace] or [animateLine] looks at the other runs or at
    [mapInstanceRef.current] again: resuming a run asks only that it has a
    call left, and the call goes to the map the run started on, removed or
    not.  Whether a call on a map throws (a removed map, a style that has
    not loaded) is Mapbox's matter, so both outcomes are steps: the call is
    made, or it throws; a throw is caught by the [try] around the body of
    [animateTrace], which then ends, and is taken to happen before the map
    is changed. *)
Definition step (s : State) (e : Event) : option State :=
  match e with
  | FetchTraceroute =>
      Some (mapEffect (mkState [] true false (mapInstance s) (maps s) (runs s)))
  | HopArrives hop =>
      if loading s
      then Some (mapEffect (mkState (hops s ++ [hop]) (loading s) (mapReady s)
                              (mapInstance s) (maps s) (runs s)))
      else None
  | TraceEnds =>
      if loading s
      then Some (mkState (hops s) false (mapReady s) (mapInstance s) (maps s)
                   (runs s))
      else None
  | StyleChanges => Some (mapEffect s)
  | MapLoads =>
      match mapInstance s with
      | Some _ =>
          Some (mkState (hops s) (loading s) true (mapInstance s) (maps s)
                  (runs s))
      | None => None
      end
  | StartAnimation cables landings =>
      match mapInstance s with
      | Some map =>
          if negb (loading s) && mapReady s && (2 <=? length (hops s))%nat
          then Some (mkState (hops s) (loading s) (mapReady s) (mapInstance s)
                       (maps s)
                       (runs s ++ [mkRun map (animateTrace haversineDistance
                                                cables landings (hops s))]))
          else None
      | None => None
      end
  | AnimateLine k =>
      match runs s !! k with
      | Some (mkRun map (segment :: rest)) =>
          match maps s !! map with
          | Some surface =>
              Some (mkState (hops s) (loading s) (mapReady s) (mapInstance s)
                      (<[map := drawSegment surface segment]> (maps s))
                      (<[k := mkRun map rest]> (runs s)))
          | None => None
          end
      | _ => None
      end
  | CallFails k =>
      match runs s !! k with
      | Some (mkRun map (_ :: _)) =>
          Some (mkState (hops s) (loading s) (mapReady s) (mapInstance s)
                  (maps s) (<[k := mkRun map []]> (runs s)))
      | _ => None
      end
  end.

(** A sequence of callbacks, in the order the event loop runs them. *)
Fixpoint exec (s : State) (events : list Event) : option State :=
  match events with
  | [] => Some s
  | e :: rest =>
      match step s e with
      | Some s' => exec s' rest
      | None => None
      end
  end.

(** The line that callback [e] draws on map [map], if any. *)
Definition drawn (map : nat) (s : State) (e : Event) : list Segment :=
  match e with
  | AnimateLine k =>
      match runs s !! k with
      | Some (mkRun map' (segment :: _)) =>
          if decide (map' = map) then [segment] else []
      | _ => []
      end
  | _ => []
  end.

(** The lines drawn on map [map] in a sequence of callbacks, in order. *)
Fixpoint drawnOn (map : nat) (s : State) (events : list Event) : list Segment :=
  match events with
  | [] => []
  | e :: rest =>
      drawn map s e
      ++ match step s e with
         | Some s' => drawnOn map s' rest
         | None => []
         end
  end.

End Steps.

(** The lines on the map that the component shows, the one in
    [mapInstanceRef.current]; none before the first map is made. *)
Definition shown (s : State) : MapSurface :=
  default emptySurface (mapInstance s ≫= fun map => maps s !! map).

End App.

(** Three hops are traced, the last map loads, and the animation is started;
    its fetch of the cables fails, so it runs the fall-back loop, and it has
    drawn the first of its two direct lines. *)
Definition firstRequest : list App.Event :=
  [App.FetchTraceroute; App.HopArrives hopAtAlpha; App.HopArrives hopAtBeta;
   App.HopArrives hopNearGamma; App.TraceEnds; App.MapLoads;
   App.StartAnimation [] [alpha; beta; gamma]; App.AnimateLine 0].

(** The button is clicked again, and this time both datasets arrive. *)
Definition secondRequest : App.Event :=
  App.StartAnimation [cableAB; cableBG] [alpha; beta; gamma].

(** The second run makes its six calls; the first run, still suspended in
    the pause after its first line, makes its second call in between. *)
Definition afterSecondRequest : list App.Event :=
  [App.AnimateLine 1; App.AnimateLine 1; App.AnimateLine 0; App.AnimateLine 1;
   App.AnimateLine 1; App.AnimateLine 1; App.AnimateLine 1].

(** The states of the component at the second request, right after it, and
    when the animation of the second request is over. *)
Definition atSecondRequest : App.State :=
  default App.mounted (App.exec flatDistance App.mounted firstRequest).
Definition secondRequested : App.State :=
  default App.mounted (App.step flatDistance atSecondRequest secondRequest).
Definition secondAnimated : App.State :=
  default App.mounted
    (App.exec flatDistance secondRequested afterSecondRequest).

(** ** Numbers: examples *)

Example toFixed_half_up : JsNumber.toFixed 0 2.5%float = "3".
Proof. vm_compute. reflexivity. Qed.

(** The double nearest to 1.005 lies below it. *)
Example toFixed_binary_value : JsNumber.toFixed 2 1.005%float = "1.00".
Proof. vm_compute. reflexivity. Qed.

Example toFixed_negative_zero : JsNumber.toFixed 3 (-0)%float = "0.000".
Proof. vm_compute. reflexivity. Qed.

Example toFixed_small_negative : JsNumber.toFixed 3 (-0.0001)%float = "-0.000".
Proof. vm_compute. reflexivity. Qed.

Example truthy_zero :
  JsNumber.truthy 0%float = false /\ JsNumber.truthy (-0)%float = false /\
  JsNumber.truthy nan = false /\ JsNumber.truthy 0.0001%float = true.
Proof. vm_compute. done. Qed.

(** ** Coordinate keys: examples *)

Example coordKey_sample :
  coordKey (10.0001%float, 20.0001%float) = "10.000,20.000".
Proof. vm_compute. reflexivity. Qed.

Example coordKey_negative :
  coordKey ((-73.9857)%float, 40.7484%float) = "-73.986,40.748".
Proof. vm_compute. reflexivity. Qed.

Example coordKey_small :
  coordKey (0.0126%float, (-0.5)%float) = "0.013,-0.500".
Proof. vm_compute. reflexivity. Qed.

(** ** Coordinate keys: theorems *)

Lemma toFixed_same_rounding (f : nat) (x y : float) (v : Z) :
  JsNumber.roundedTo f x = Some v ->
  JsNumber.roundedTo f y = Some v ->
  JsNumber.isNegative x = JsNumber.isNegative y ->
  JsNumber.toFixed f x = JsNumber.toFixed f y.
Proof.
  unfold JsNumber.roundedTo, JsNumber.isNegative, JsNumber.toFixed.
  destruct (Prim2SF x) as [sx|sx| |sx mx ex],
           (Prim2SF y) as [sy|sy| |sy my ey];
    try discriminate; intros Hx Hy Hs.
  - reflexivity.
  - subst sy. injection Hx as <-. injection Hy as Hy. simpl. now rewrite Hy.
  - subst sx. injection Hy as <-. injection Hx as Hx. simpl. now rewrite Hx.
  - subst sy. injection Hx as <-. injection Hy as Hy.
    destruct sx; [apply Z.opp_inj in Hy|]; now rewrite Hy.
Qed.

(** C7, as stated, fails: [-0.0001] and [0.0001] both round to zero at three
    decimal places, yet the first prints as ["-0.000"] and the second as
    ["0.000"], so the two keys differ. *)
Lemma coordKey_sign_of_zero_separates :
  JsNumber.roundedTo 3 (-0.0001)%float = JsNumber.roundedTo 3 0.0001%float /\
  JsNumber.roundedTo 3 20%float = JsNumber.roundedTo 3 20%float /\
  coordKey ((-0.0001)%float, 20%float) = "-0.000,20.000" /\
  coordKey (0.0001%float, 20%float) = "0.000,20.000" /\
  coordKey ((-0.0001)%float, 20%float) <> coordKey (0.0001%float, 20%float).
Proof. vm_compute. repeat split; discriminate. Qed.

(** C7, amended: two coordinates whose longitudes and whose latitudes round
    to the same value at three decimal places, and are both negative or both
    not, get the same key; (10.0001, 20.0001) and (10.00013, 20.00009) do. *)
Theorem coordKey_collides_on_rounding :
  (forall (a b : Coord) (vlon vlat : Z),
      JsNumber.roundedTo 3 a.1 = Some vlon ->
      JsNumber.roundedTo 3 b.1 = Some vlon ->
      JsNumber.roundedTo 3 a.2 = Some vlat ->
      JsNumber.roundedTo 3 b.2 = Some vlat ->
      JsNumber.isNegative a.1 = JsNumber.isNegative b.1 ->
      JsNumber.isNegative a.2 = JsNumber.isNegative b.2 ->
      coordKey a = coordKey b) /\
  coordKey (10.0001%float, 20.0001%float)
    = coordKey (10.00013%float, 20.00009%float).
Proof.
  split.
  - intros a b vlon vlat H1 H2 H3 H4 H5 H6. unfold coordKey.
    rewrite (toFixed_same_rounding 3 a.1 b.1 vlon H1 H2 H5).
    rewrite (toFixed_same_rounding 3 a.2 b.2 vlat H3 H4 H6).
    reflexivity.
  - vm_compute. reflexivity.
Qed.

Lemma coordKey_collides_on_rounding_witness :
  coordKey (10.0004%float, (-20.0004)%float)
    = coordKey (9.9996%float, (-19.9996)%float).
Proof.
  apply (proj1 coordKey_collides_on_rounding _ _ 10000%Z (-20000)%Z);
    vm_compute; reflexivity.
Defined.

(** ** Path finder: theorems *)

Example dfs_triangle :
  findCablePathDFS triangle "A" "C" ∅ = Some ["A"; "B"; "C"].
Proof. vm_compute. reflexivity. Qed.

Example dfs_triangle_back :
  findCablePathDFS triangle "C" "B" ∅ = Some ["C"; "A"; "B"].
Proof. vm_compute. reflexivity. Qed.

Example dfs_out_of_graph :
  findCablePathDFS triangle "A" "Z" ∅ = None.
Proof. vm_compute. reflexivity. Qed.

Section PathFinderFacts.

Context (graph : Graph) (end_ : string).

Implicit Types (visited : gset string) (edges : list Edge).
Implicit Types (recur : string -> option (option (list string))).

(** *** The loop over the edges *)

Lemma forEdges_total visited recur start edges :
  (forall edge, edge ∈ edges -> to edge ∉ visited -> is_Some (recur (to edge))) ->
  is_Some (forEdges visited recur start edges).
Proof.
  induction edges as [|edge rest IH]; intros Hrec; simpl; [by eexists|].
  assert (is_Some (forEdges visited recur start rest)) as Hrest.
  { apply IH. intros e' He'. apply Hrec. by right. }
  case_decide as Hvis; [done|].
  destruct (Hrec edge) as [[path|] ->]; [by left|done|by eexists|done].
Qed.

Lemma forEdges_mono visited recur recur' start edges res :
  (forall next r, recur next = Some r -> recur' next = Some r) ->
  forEdges visited recur start edges = Some res ->
  forEdges visited recur' start edges = Some res.
Proof.
  intros Hle. induction edges as [|edge rest IH]; simpl; [done|].
  case_decide; [done|].
  destruct (recur (to edge)) as [[path|]|] eqn:Hr; [| |done];
    rewrite (Hle _ _ Hr); done.
Qed.

Lemma forEdges_success visited recur start edges p :
  forEdges visited recur start edges = Some (Some p) ->
  exists edge p', edge ∈ edges /\ (to edge ∉ visited) /\
    recur (to edge) = Some (Some p') /\ p = start :: p'.
Proof.
  induction edges as [|edge rest IH]; simpl; [done|].
  assert (forEdges visited recur start rest = Some (Some p) ->
          exists edge0 p', edge0 ∈ edge :: rest /\ (to edge0 ∉ visited) /\
            recur (to edge0) = Some (Some p') /\ p = start :: p') as Hrest.
  { intros (e' & p' & ? & ? & ? & ?)%IH. exists e', p'. split; [by right|done]. }
  case_decide as Hvis; [done|].
  destruct (recur (to edge)) as [[path|]|] eqn:Hr; [|done|done].
  intros [= <-]. exists edge, path. split; [by left|done].
Qed.

Lemma forEdges_failure visited recur start edges :
  forEdges visited recur start edges = Some None ->
  forall edge, edge ∈ edges -> to edge ∈ visited \/ recur (to edge) = Some None.
Proof.
  induction edges as [|edge rest IH]; simpl; intros Hf e' He'.
  { by apply elem_of_nil in He'. }
  apply elem_of_cons in He' as [->|He'].
  - case_decide; [by left|].
    destruct (recur (to edge)) as [[path|]|]; [done|by right|done].
  - apply IH; [|done]. case_decide; [done|].
    destruct (recur (to edge)) as [[path|]|]; done.
Qed.

(** What the loop computes once the recursive calls are known to return:
    the first success over the edges whose target is not yet visited. *)
Lemma forEdges_firstFound visited recur (result : string -> option (list string))
    start edges :
  (forall edge, edge ∈ edges -> to edge ∉ visited ->
     recur (to edge) = Some (result (to edge))) ->
  forEdges visited recur start edges
  = Some (firstFound
            (fun edge => if decide (to edge ∈ visited) then None
                         else cons start <$> result (to edge)) edges).
Proof.
  induction edges as [|edge rest IH]; intros Hrec; simpl; [done|].
  assert (forall e', e' ∈ rest -> to e' ∉ visited ->
            recur (to e') = Some (result (to e'))) as Hrest.
  { intros e' He'. apply Hrec. by right. }
  case_decide as Hvis; [by apply IH|].
  rewrite (Hrec edge); [|by left|done].
  destruct (result (to edge)); simpl; [done|by apply IH].
Qed.

(** *** Fuel *)

Lemma edges_in_dom start edge :
  edge ∈ default [] (graph !! start) -> start ∈ dom graph.
Proof.
  intros He. apply elem_of_dom. destruct (graph !! start); [by eexists|].
  by apply elem_of_nil in He.
Qed.

Lemma unvisited_shrinks start visited :
  start ∈ dom graph -> start ∉ visited ->
  size (dom graph ∖ (visited ∪ {[start]})) < size (dom graph ∖ visited).
Proof.
  intros Hdom Hvis. apply subset_size. set_solver.
Qed.

Lemma dfs_enough_fuel fuel start visited :
  size (dom graph ∖ visited) < fuel ->
  is_Some (dfs fuel graph start end_ visited).
Proof.
  revert start visited.
  induction fuel as [|fuel IH]; intros start visited Hfuel; [lia|].
  simpl. case_decide; [by eexists|]. case_decide as Hvis; [by eexists|].
  apply forEdges_total. intros edge He _. apply IH.
  pose proof (unvisited_shrinks start visited (edges_in_dom _ _ He) Hvis). lia.
Qed.

Lemma dfs_fuel_mono fuel fuel' start visited res :
  fuel <= fuel' ->
  dfs fuel graph start end_ visited = Some res ->
  dfs fuel' graph start end_ visited = Some res.
Proof.
  revert fuel' start visited res.
  induction fuel as [|fuel IH]; intros fuel' start visited res Hle; [done|].
  destruct fuel' as [|fuel']; [lia|]. simpl.
  case_decide; [done|]. case_decide; [done|].
  apply forEdges_mono. intros next r. apply IH. lia.
Qed.

Lemma dfs_at_full_fuel start visited :
  dfs (S (size (dom graph))) graph start end_ visited
  = Some (findCablePathDFS graph start end_ visited).
Proof.
  unfold findCablePathDFS.
  destruct (dfs_enough_fuel (S (size (dom graph))) start visited) as [r ->];
    [|done].
  assert (size (dom graph ∖ visited) <= size (dom graph)); [|lia].
  apply subseteq_size. set_solver.
Qed.

End PathFinderFacts.

(** *** Walks and simple walks *)

Section Walks.

Context (graph : Graph).

Lemma isPath_head s e p : isPath graph s e p -> exists p', p = s :: p'.
Proof. destruct 1; eauto. Qed.

Lemma isPath_reachable s e p : isPath graph s e p -> reachable graph s e.
Proof.
  induction 1 as [s|s m e p Hedge _ IH]; [apply rtc_refl|].
  by eapply rtc_l.
Qed.

(** From any vertex of a walk, the rest of the walk leads to its end. *)
Lemma isPath_from_member s e p x :
  isPath graph s e p -> x ∈ p ->
  exists q, isPath graph x e q /\ q `suffix_of` p.
Proof.
  induction 1 as [s|s m e p Hedge Hp IH]; intros Hx.
  - apply list_elem_of_singleton in Hx as ->.
    exists [s]. split; [constructor|done].
  - apply elem_of_cons in Hx as [->|Hx].
    + exists (s :: p). split; [by econstructor|done].
    + destruct (IH Hx) as (q & Hq & Hsuf).
      exists q. split; [done|]. by apply suffix_cons_r.
Qed.

Lemma NoDup_suffix (q p : list string) : q `suffix_of` p -> NoDup p -> NoDup q.
Proof. intros [k ->] Hnd. by apply NoDup_app in Hnd as (_ & _ & ?). Qed.

(** Cutting the loops out of a walk: whatever is reachable is reachable
    along a walk that repeats no vertex. *)
Lemma reachable_simple_path s e :
  reachable graph s e -> exists p, isPath graph s e p /\ NoDup p.
Proof.
  induction 1 as [s|s m e Hedge _ (q & Hq & Hnd)].
  - exists [s]. split; [constructor|]. apply NoDup_singleton.
  - destruct (decide (s ∈ q)) as [Hin|Hout].
    + destruct (isPath_from_member _ _ _ _ Hq Hin) as (q' & Hq' & Hsuf).
      exists q'. split; [done|]. by eapply NoDup_suffix.
    + exists (s :: q). split; [by econstructor|]. by apply NoDup_cons.
Qed.

(** *** Soundness and completeness of the bounded search *)

Lemma dfs_sound end_ fuel start visited p :
  end_ ∉ visited ->
  dfs fuel graph start end_ visited = Some (Some p) ->
  isPath graph start end_ p /\ NoDup p /\ forall x, x ∈ p -> x ∉ visited.
Proof.
  revert start visited p.
  induction fuel as [|fuel IH]; intros start visited p Hend; [done|].
  simpl. case_decide as Heq.
  { intros [= <-]. subst. split; [constructor|]. split; [apply NoDup_singleton|].
    by intros x ->%list_elem_of_singleton. }
  case_decide as Hvis; [done|].
  intros (edge & p' & Hedge & Hnew & Hrec & ->)%forEdges_success.
  apply IH in Hrec as (Hpath & Hnd & Hfresh); [|set_solver].
  split; [|split].
  - apply isPath_step with (to edge); [|done].
    destruct (graph !! start) as [es|] eqn:Hes; simpl in Hedge.
    + by exists es, edge.
    + by apply elem_of_nil in Hedge.
  - apply NoDup_cons. split; [|done]. intros Hin%Hfresh. set_solver.
  - intros x [->|Hin%Hfresh]%elem_of_cons; [done|set_solver].
Qed.

Lemma dfs_complete end_ fuel start visited p :
  isPath graph start end_ p -> NoDup p -> (forall x, x ∈ p -> x ∉ visited) ->
  dfs fuel graph start end_ visited <> Some None.
Proof.
  revert start visited p.
  induction fuel as [|fuel IH]; intros start visited p Hpath Hnd Hfresh; [done|].
  simpl. case_decide as Heq; [done|].
  case_decide as Hvis.
  { destruct (isPath_head _ _ _ Hpath) as [p' ->].
    exfalso. apply (Hfresh start); [by left|done]. }
  inversion Hpath as [|s m e p' (es & edge & Hes & Hedge & Hto) Hrest];
    subst; [done|].
  rewrite Hes. simpl. intros Hfail.
  apply NoDup_cons in Hnd as [Hstart Hnd'].
  assert (to edge ∈ p') as Hm.
  { destruct (isPath_head _ _ _ Hrest) as [? ->]. by left. }
  destruct (forEdges_failure _ _ _ _ Hfail edge Hedge) as [Hin|Hnone].
  - apply elem_of_union in Hin as [Hin|Hin%elem_of_singleton].
    + apply (Hfresh (to edge)); [by right|done].
    + by rewrite Hin in Hm.
  - revert Hnone. apply IH with p'; [done|done|].
    intros x Hx [Hin|Hin%elem_of_singleton]%elem_of_union.
    + apply (Hfresh x); [by right|done].
    + by subst.
Qed.

End Walks.

(** *** The search, free of fuel *)

(** The recursive equation of the source function: the bound on the depth
    never cuts a call short. *)
Lemma findCablePathDFS_eq (graph : Graph) (start end_ : string)
    (visited : gset string) :
  findCablePathDFS graph start end_ visited
  = if decide (start = end_) then Some [start]
    else if decide (start ∈ visited) then None
    else firstFound
           (fun edge =>
              if decide (to edge ∈ visited ∪ {[start]}) then None
              else cons start <$>
                     findCablePathDFS graph (to edge) end_ (visited ∪ {[start]}))
           (default [] (graph !! start)).
Proof.
  pose proof (dfs_at_full_fuel graph end_ start visited) as Hfull.
  simpl in Hfull. repeat case_decide; [congruence|congruence|].
  rewrite (forEdges_firstFound _ _
             (fun next => findCablePathDFS graph next end_ (visited ∪ {[start]})))
    in Hfull; [congruence|].
  intros edge Hedge _. simpl.
  destruct (dfs_enough_fuel graph end_ (size (dom graph)) (to edge)
              (visited ∪ {[start]})) as [r Hr].
  { pose proof (unvisited_shrinks graph start visited
                  (edges_in_dom _ _ _ Hedge) ltac:(done)).
    assert (size (dom graph ∖ visited) <= size (dom graph)); [|lia].
    apply subseteq_size. set_solver. }
  rewrite Hr. f_equal.
  apply (dfs_fuel_mono _ _ _ (S (size (dom graph)))) in Hr; [|lia].
  rewrite dfs_at_full_fuel in Hr. by injection Hr.
Qed.

Lemma islands_apart : ~ reachable islands "A" "C".
Proof.
  assert (forall x y, reachable islands x y ->
            x = "A" \/ x = "B" -> y = "A" \/ y = "B") as Hclosed.
  { induction 1 as [x|x m y (es & e & Hes & He & <-) _ IH]; [done|].
    intros Hx. apply IH.
    destruct Hx as [-> | ->]; vm_compute in Hes; injection Hes as <-;
      apply list_elem_of_singleton in He as ->; auto. }
  intros Hreach. destruct (Hclosed _ _ Hreach); [by left|done|done].
Qed.

Lemma triangle_reaches : reachable triangle "A" "C".
Proof.
  eapply rtc_l; [|apply rtc_refl].
  exists [mkEdge "B" "ab" []; mkEdge "C" "ac" []], (mkEdge "C" "ac" []).
  split; [by vm_compute|]. split; [|done]. right. left.
Qed.

(** C5: the singleton path when start and end coincide, no path when the end
    cannot be reached from the start, and otherwise a walk from start to end
    along edges of the graph that repeats no vertex. *)
Theorem findCablePathDFS_finds_iff_reachable (graph : Graph) (start end_ : string) :
  (start = end_ -> findCablePathDFS graph start end_ ∅ = Some [start]) /\
  (~ reachable graph start end_ -> findCablePathDFS graph start end_ ∅ = None) /\
  (reachable graph start end_ ->
     exists p, findCablePathDFS graph start end_ ∅ = Some p /\
               isPath graph start end_ p /\ NoDup p).
Proof.
  pose proof (dfs_at_full_fuel graph end_ start ∅) as Hfull.
  split; [|split].
  - intros Heq. rewrite findCablePathDFS_eq. by case_decide.
  - intros Hnot. destruct (findCablePathDFS graph start end_ ∅) as [p|]; [|done].
    apply dfs_sound in Hfull as (Hpath & _); [|set_solver].
    by apply isPath_reachable in Hpath.
  - intros (q & Hq & Hnd)%reachable_simple_path.
    destruct (findCablePathDFS graph start end_ ∅) as [p|].
    + exists p. split; [done|].
      apply dfs_sound in Hfull as (? & ? & _); [done|set_solver].
    + exfalso. revert Hfull. apply dfs_complete with q; [done|done|set_solver].
Qed.

Lemma findCablePathDFS_finds_iff_reachable_witness :
  findCablePathDFS triangle "A" "A" ∅ = Some ["A"] /\
  findCablePathDFS islands "A" "C" ∅ = None /\
  exists p, findCablePathDFS triangle "A" "C" ∅ = Some p /\
            isPath triangle "A" "C" p /\ NoDup p.
Proof.
  split; [|split].
  - apply (proj1 (findCablePathDFS_finds_iff_reachable triangle "A" "A")).
    reflexivity.
  - apply (proj1 (proj2 (findCablePathDFS_finds_iff_reachable islands "A" "C"))).
    exact islands_apart.
  - apply (proj2 (proj2 (findCablePathDFS_finds_iff_reachable triangle "A" "C"))).
    exact triangle_reaches.
Defined.

(** C6: the search is depth first and first found.  It walks the edges of
    [start] in stored order, hands every recursive call the same
    [visited ∪ {start}] (nothing a sibling branch visited is carried over),
    and returns [start] in front of the first child path that succeeds.  In
    the triangle the edge to "B" is stored first, so the path found from "A"
    to "C" has three vertices although the edge "A" to "C" exists. *)
Theorem findCablePathDFS_first_found :
  (forall (graph : Graph) (start end_ : string) (visited : gset string),
      findCablePathDFS graph start end_ visited
      = if decide (start = end_) then Some [start]
        else if decide (start ∈ visited) then None
        else firstFound
               (fun edge =>
                  if decide (to edge ∈ visited ∪ {[start]}) then None
                  else cons start <$>
                         findCablePathDFS graph (to edge) end_
                           (visited ∪ {[start]}))
               (default [] (graph !! start))) /\
  findCablePathDFS triangle "A" "C" ∅ = Some ["A"; "B"; "C"] /\
  isPath triangle "A" "C" ["A"; "C"].
Proof.
  split; [exact findCablePathDFS_eq|]. split; [by vm_compute|].
  apply isPath_step with "C"; [|constructor].
  exists [mkEdge "B" "ab" []; mkEdge "C" "ac" []], (mkEdge "C" "ac" []).
  split; [by vm_compute|]. split; [|done]. right. left.
Qed.

(** C10: a start key that has no entry in the graph, and differs from the
    end key, yields no path: [graph[start] || []] is the empty array and the
    loop body never runs. *)
Theorem findCablePathDFS_start_not_in_graph (graph : Graph) (start end_ : string) :
  graph !! start = None -> start <> end_ ->
  findCablePathDFS graph start end_ ∅ = None.
Proof.
  intros Hnone Hne. rewrite findCablePathDFS_eq, Hnone.
  case_decide; [done|]. case_decide; [set_solver|done].
Qed.

Lemma findCablePathDFS_start_not_in_graph_witness :
  findCablePathDFS triangle "Z" "A" ∅ = None.
Proof.
  apply findCablePathDFS_start_not_in_graph; [by vm_compute|discriminate].
Defined.

(** ** Cable graph builder: theorems *)

Lemma ensureKey_lookup (k k' : string) (graph : Graph) :
  ensureKey k graph !! k'
  = if decide (k = k') then Some (default [] (graph !! k)) else graph !! k'.
Proof.
  unfold ensureKey. destruct (graph !! k) as [es|] eqn:Hk.
  - case_decide; [by subst|done].
  - rewrite lookup_insert. by case_decide.
Qed.

Lemma pushEdge_lookup (k k' : string) (edge : Edge) (graph : Graph) :
  pushEdge k edge graph !! k'
  = if decide (k = k') then (fun edges => edges ++ [edge]) <$> graph !! k'
    else graph !! k'.
Proof. unfold pushEdge. rewrite lookup_alter. case_decide; by subst. Qed.

(** The four assignments that insert one cable, taken together. *)
Lemma link_lookup (ks ke k : string) (fwd bwd : Edge) (graph : Graph) :
  ks <> ke ->
  pushEdge ke bwd (pushEdge ks fwd (ensureKey ke (ensureKey ks graph))) !! k
  = if decide (k = ks) then Some (default [] (graph !! k) ++ [fwd])
    else if decide (k = ke) then Some (default [] (graph !! k) ++ [bwd])
    else graph !! k.
Proof.
  intros Hne. rewrite !pushEdge_lookup, !ensureKey_lookup.
  repeat case_decide; by subst.
Qed.

Section BuilderFacts.

Variable haversineDistance : LatLon -> LatLon -> float.
Variable landings : list Landing.

Lemma addCable_cases (graph : Graph) (cable : Cable) :
  addCable haversineDistance landings graph cable = graph \/
  exists ks ke,
    inserted haversineDistance landings cable ks ke /\
    addCable haversineDistance landings graph cable
    = pushEdge ke
        (mkEdge ks (cableProperName cable)
           (reverse (cableCoordinates (cableGeometry cable))))
        (pushEdge ks
           (mkEdge ke (cableProperName cable)
              (cableCoordinates (cableGeometry cable)))
           (ensureKey ke (ensureKey ks graph))).
Proof.
  unfold addCable.
  destruct (length _ <? 2)%nat; [by left|].
  destruct (head _) as [startCoord|] eqn:Hhead; [|by left].
  destruct (last _) as [endCoord|] eqn:Hlast; [|by left].
  destruct (findClosestLanding _ _ startCoord) as [sl|] eqn:Hs; [|by left].
  destruct (findClosestLanding _ _ endCoord) as [el|] eqn:He; [|by left].
  case_decide as Hne; [|by left].
  right. exists (key sl), (key el). split; [|done].
  by exists startCoord, endCoord, sl, el.
Qed.

(** *** Symmetry *)

Lemma link_keeps_edges (ks ke k : string) (fwd bwd edge : Edge)
    (graph : Graph) (edges : list Edge) :
  ks <> ke -> graph !! k = Some edges -> edge ∈ edges ->
  exists edges',
    pushEdge ke bwd (pushEdge ks fwd (ensureKey ke (ensureKey ks graph))) !! k
    = Some edges' /\ edge ∈ edges'.
Proof.
  intros Hne Hk Hin. rewrite link_lookup, Hk by done. simpl.
  repeat case_decide; eexists; (split; [done|]); set_solver.
Qed.

Lemma addCable_symmetric (graph : Graph) (cable : Cable) :
  symmetric graph -> symmetric (addCable haversineDistance landings graph cable).
Proof.
  intros Hsym.
  destruct (addCable_cases graph cable) as [->|(ks & ke & Hins & ->)]; [done|].
  destruct Hins as (_ & _ & _ & _ & _ & _ & _ & _ & _ & _ & Hne).
  set (bwd := mkEdge ks _ _). set (fwd := mkEdge ke _ _).
  intros u v name G edges Hu Hin.
  rewrite link_lookup in Hu by done.
  assert (forall old, graph !! u = Some old -> mkEdge v name G ∈ old ->
            exists edges',
              pushEdge ke bwd (pushEdge ks fwd (ensureKey ke (ensureKey ks graph))) !! v
              = Some edges' /\ mkEdge u name (reverse G) ∈ edges') as Hold.
  { intros old Hold Hin'. destruct (Hsym _ _ _ _ _ Hold Hin') as (es' & Hv & Hrev).
    by eapply link_keeps_edges. }
  assert (mkEdge v name G ∈ default [] (graph !! u) ->
          graph !! u = Some (default [] (graph !! u))) as Hsome.
  { intros Hin'. destruct (graph !! u); [done|]. by apply elem_of_nil in Hin'. }
  repeat case_decide; subst.
  - injection Hu as <-. apply elem_of_app in Hin as [Hin|Hin].
    + by eapply Hold; [apply Hsome|].
    + apply list_elem_of_singleton in Hin. injection Hin as -> -> ->.
      rewrite link_lookup by done. repeat case_decide; try done.
      eexists. split; [done|]. set_solver.
  - injection Hu as <-. apply elem_of_app in Hin as [Hin|Hin].
    + by eapply Hold; [apply Hsome|].
    + apply list_elem_of_singleton in Hin. injection Hin as -> -> ->.
      rewrite link_lookup by done. repeat case_decide; try done.
      eexists. split; [done|]. rewrite reverse_involutive. set_solver.
  - by eapply Hold.
Qed.

Lemma fold_addCable_symmetric (cables : list Cable) (graph : Graph) :
  symmetric graph ->
  symmetric (fold_left (addCable haversineDistance landings) cables graph).
Proof.
  revert graph. induction cables as [|cable rest IH]; intros graph Hsym; [done|].
  simpl. by apply IH, addCable_symmetric.
Qed.

End BuilderFacts.

Section BuilderClaims.

Variable haversineDistance : LatLon -> LatLon -> float.
Variable landings : list Landing.

(** *** Every key is an endpoint *)

(** Whatever [findClosestLanding] returns was made from one of the landings. *)
Lemma findClosestLanding_from_landing (coord : Coord) (closest : ClosestLanding) :
  findClosestLanding haversineDistance landings coord = Some closest ->
  exists landing, landing ∈ landings /\
    key closest = coordKey (landingCoordinates landing).
Proof.
  unfold findClosestLanding.
  assert (forall ls st,
            (forall c, st.1 = Some c -> exists landing, landing ∈ landings /\
                         key c = coordKey (landingCoordinates landing)) ->
            (forall l, l ∈ ls -> l ∈ landings) ->
            forall c, (fold_left (closerLanding haversineDistance coord) ls st).1
                      = Some c ->
              exists landing, landing ∈ landings /\
                key c = coordKey (landingCoordinates landing)) as Hfold.
  { induction ls as [|l ls IH]; intros st Hst Hsub; [done|].
    simpl. apply IH; [|intros l' Hl'; apply Hsub; by right].
    unfold closerLanding. destruct (_ && _); [|done].
    intros c [= <-]. exists l. split; [apply Hsub; by left|done]. }
  intros Hres. by apply (Hfold landings (None, infinity)).
Qed.

Lemma hasCableEdge_app cables k edges more :
  hasCableEdge haversineDistance landings cables k edges ->
  hasCableEdge haversineDistance landings cables k (edges ++ more).
Proof.
  intros (cable & edge & ? & ? & ? & ?). exists cable, edge.
  repeat split; try done. set_solver.
Qed.

Lemma addCable_keysAreEndpoints cables graph cable :
  cable ∈ cables -> keysAreEndpoints haversineDistance landings cables graph ->
  keysAreEndpoints haversineDistance landings cables
    (addCable haversineDistance landings graph cable).
Proof.
  intros Hcable Hinv.
  destruct (addCable_cases haversineDistance landings graph cable)
    as [->|(ks & ke & Hins & ->)]; [done|].
  assert (ks <> ke) as Hne
    by (by destruct Hins as (_ & _ & _ & _ & _ & _ & _ & _ & _ & _ & ?)).
  intros k edges. rewrite link_lookup by done.
  repeat case_decide; subst.
  - intros [= <-]. exists cable, (mkEdge ke (cableProperName cable)
                     (cableCoordinates (cableGeometry cable))).
    repeat split; [done|set_solver|by left].
  - intros [= <-]. exists cable, (mkEdge ks (cableProperName cable)
                     (reverse (cableCoordinates (cableGeometry cable)))).
    repeat split; [done|set_solver|by right].
  - apply Hinv.
Qed.

Lemma fold_addCable_keysAreEndpoints cables todo graph :
  (forall cable, cable ∈ todo -> cable ∈ cables) ->
  keysAreEndpoints haversineDistance landings cables graph ->
  keysAreEndpoints haversineDistance landings cables
    (fold_left (addCable haversineDistance landings) todo graph).
Proof.
  revert graph. induction todo as [|cable rest IH]; intros graph Hsub Hinv; [done|].
  simpl. apply IH; [intros c Hc; apply Hsub; by right|].
  apply addCable_keysAreEndpoints; [apply Hsub; by left|done].
Qed.

Lemma inserted_keys_of_landings cable ks ke :
  inserted haversineDistance landings cable ks ke ->
  (exists landing, landing ∈ landings /\ ks = coordKey (landingCoordinates landing)) /\
  (exists landing, landing ∈ landings /\ ke = coordKey (landingCoordinates landing)).
Proof.
  intros (sc & ec & sl & el & _ & _ & Hs & He & <- & <- & _).
  split; by eapply findClosestLanding_from_landing.
Qed.

(** C3: the graph that [buildCableGraph] returns is symmetric.  An edge from
    [u] to [v] with geometry [G] under some cable's name comes with an edge
    from [v] to [u] under the same name whose geometry is [G] reversed. *)
Theorem buildCableGraph_symmetric (cables : list Cable) (u v cable : string)
    (G : list Coord) (edges : list Edge) :
  (buildCableGraph haversineDistance cables landings).1 !! u = Some edges ->
  mkEdge v cable G ∈ edges ->
  exists edges',
    (buildCableGraph haversineDistance cables landings).1 !! v = Some edges' /\
    mkEdge u cable (reverse G) ∈ edges'.
Proof.
  apply fold_addCable_symmetric. intros ? ? ? ? ? Hempty.
  by rewrite lookup_empty in Hempty.
Qed.

(** C4: every key of the graph that [buildCableGraph] returns has a
    non-empty edge list; it is the key of a landing, and some cable of the
    dataset that was inserted has one end resolved to it and left an edge in
    its list.  A key that no end of an inserted cable resolved to is not
    a key of the graph. *)
Theorem buildCableGraph_keys_are_endpoints (cables : list Cable) (k : string) :
  (forall edges,
      (buildCableGraph haversineDistance cables landings).1 !! k = Some edges ->
      edges <> [] /\
      (exists landing, landing ∈ landings /\
         k = coordKey (landingCoordinates landing)) /\
      hasCableEdge haversineDistance landings cables k edges) /\
  ((forall cable ks ke,
      cable ∈ cables -> inserted haversineDistance landings cable ks ke ->
      k <> ks /\ k <> ke) ->
   (buildCableGraph haversineDistance cables landings).1 !! k = None).
Proof.
  assert (keysAreEndpoints haversineDistance landings cables
            (buildCableGraph haversineDistance cables landings).1) as Hinv.
  { apply fold_addCable_keysAreEndpoints; [done|].
    intros ? ? Hempty. by rewrite lookup_empty in Hempty. }
  split.
  - intros edges Hk. pose proof (Hinv k edges Hk) as Hedge.
    split; [|split; [|done]].
    + destruct Hedge as (_ & edge & _ & Hin & _). intros ->.
      by apply elem_of_nil in Hin.
    + destruct Hedge as (cable & edge & _ & _ & _ & [Hins|Hins]);
        apply inserted_keys_of_landings in Hins as [? ?]; done.
  - intros Hnone.
    destruct (_ !! k) as [edges|] eqn:Hk; [|done].
    destruct (Hinv k edges Hk) as (cable & edge & Hc & _ & _ & [Hins|Hins]);
      destruct (Hnone _ _ _ Hc Hins) as [? ?]; done.
Qed.

End BuilderClaims.

Lemma buildCableGraph_symmetric_witness :
  exists edges',
    (buildCableGraph flatDistance [cableAB; cableBG] [alpha; beta; gamma]).1
      !! keyBeta = Some edges' /\
    mkEdge keyAlpha "AB"
      (reverse [(10.01, 20.01); (30, 25); (55.4, 21.2)]%float) ∈ edges'.
Proof.
  apply (buildCableGraph_symmetric flatDistance [alpha; beta; gamma]
           [cableAB; cableBG] keyAlpha keyBeta "AB"
           [(10.01, 20.01); (30, 25); (55.4, 21.2)]%float
           [mkEdge keyBeta "AB" [(10.01, 20.01); (30, 25); (55.4, 21.2)]%float]).
  - vm_compute. reflexivity.
  - left.
Defined.

(** Gamma has no cable when only the cable from Alpha to Beta is loaded. *)
Lemma gamma_is_isolated (cable : Cable) (ks ke : string) :
  cable ∈ [cableAB] ->
  inserted flatDistance [alpha; beta; gamma] cable ks ke ->
  keyGamma <> ks /\ keyGamma <> ke.
Proof.
  intros ->%list_elem_of_singleton (sc & ec & sl & el & Hh & Hl & Hs & He & <- & <- & _).
  vm_compute in Hh. injection Hh as <-.
  vm_compute in Hl. injection Hl as <-.
  vm_compute in Hs. injection Hs as <-.
  vm_compute in He. injection He as <-.
  split; discriminate.
Qed.

Lemma buildCableGraph_keys_are_endpoints_witness :
  ([mkEdge keyBeta "AB" [(10.01, 20.01); (30, 25); (55.4, 21.2)]%float] <> [] /\
   (exists landing, landing ∈ [alpha; beta; gamma] /\
      keyAlpha = coordKey (landingCoordinates landing)) /\
   hasCableEdge flatDistance [alpha; beta; gamma] [cableAB] keyAlpha
     [mkEdge keyBeta "AB" [(10.01, 20.01); (30, 25); (55.4, 21.2)]%float]) /\
  (buildCableGraph flatDistance [cableAB] [alpha; beta; gamma]).1 !! keyGamma = None.
Proof.
  split.
  - apply (proj1 (buildCableGraph_keys_are_endpoints flatDistance
                    [alpha; beta; gamma] [cableAB] keyAlpha)).
    vm_compute. reflexivity.
  - apply (proj2 (buildCableGraph_keys_are_endpoints flatDistance
                    [alpha; beta; gamma] [cableAB] keyGamma)).
    exact gamma_is_isolated.
Defined.

(** ** Route planner: theorems *)

Example animateTrace_sample :
  segmentId <$> animateTrace flatDistance [cableAB; cableBG] [alpha; beta; gamma]
                  [hopAtAlpha; hopNearGamma; hopUnlocated; hopAtBeta]
  = ["to-0"; "cable-0-0"; "cable-0-1"; "from-0"].
Proof. vm_compute. reflexivity. Qed.

Example animateTrace_sample_fallback :
  animateTrace flatDistance [] [alpha; beta; gamma]
    [hopAtAlpha; hopAtBeta; hopUnlocated; hopNearGamma; hopAtAlpha]
  = [mkSegment "direct-0" [(10.0001, 20.0001); (55.5, 21.25)]%float;
     mkSegment "direct-3" [(99, -4); (10.0001, 20.0001)]%float].
Proof. vm_compute. reflexivity. Qed.

Example animateTrace_sample_no_path :
  segmentId <$> animateTrace flatDistance [cableAB] [alpha; beta; gamma]
                  [hopAtAlpha; hopNearGamma]
  = ["to-0"; "fallback-sea-0"; "from-0"].
Proof. vm_compute. reflexivity. Qed.

Lemma forPairs_nil_or_one (hops : list Hop) body :
  length hops < 2 -> forPairs hops body = [].
Proof.
  intros Hlen. unfold forPairs.
  replace (length hops - 1) with 0 by lia. done.
Qed.

Lemma forPairs_two (a b : Hop) body : forPairs [a; b] body = body 0 a b.
Proof. unfold forPairs. simpl. apply app_nil_r. Qed.

Lemma forPairs_three (a b c : Hop) body :
  forPairs [a; b; c] body = body 0 a b ++ body 1 b c.
Proof. unfold forPairs. simpl. by rewrite app_nil_r. Qed.

(** Each round of the loop contributes its segments to the whole. *)
Lemma forPairs_round (hops : list Hop) body (i : nat) (a b : Hop) :
  hops !! i = Some a -> hops !! (i + 1) = Some b ->
  forall segment, segment ∈ body i a b -> segment ∈ forPairs hops body.
Proof.
  intros Ha Hb segment Hin. unfold forPairs.
  apply list_elem_of_In, in_flat_map. exists i. split.
  - apply in_seq. apply lookup_lt_Some in Hb. lia.
  - rewrite Ha, Hb. by apply list_elem_of_In.
Qed.

Lemma directLine_draws (i : nat) (a b : Hop) :
  pairHasCoordinates a b = true ->
  directLine i a b = [mkSegment ("direct-" +:+ pretty i) [hopCoord a; hopCoord b]].
Proof. intros Hab. unfold directLine. by rewrite Hab. Qed.

Lemma directLine_skips (i : nat) (a b : Hop) :
  pairHasCoordinates a b = false -> directLine i a b = [].
Proof. intros Hab. unfold directLine. by rewrite Hab. Qed.

Lemma routePair_skips (graph : Graph) (coordMap : CoordMap) haversineDistance
    (i : nat) (a b : Hop) :
  pairHasCoordinates a b = false ->
  routePair haversineDistance graph coordMap i a b = [].
Proof. intros Hab. unfold routePair. by rewrite Hab. Qed.

(** A pair that passes the guard of the main loop gets at least one line:
    the direct fall-back, or the leg from the first hop to its landing. *)
Lemma routePair_draws (graph : Graph) (coordMap : CoordMap) haversineDistance
    (i : nat) (a b : Hop) :
  pairHasCoordinates a b = true ->
  routePair haversineDistance graph coordMap i a b <> [].
Proof.
  intros Hab. unfold routePair. rewrite Hab. simpl.
  destruct (resolvedCoord _ _) as [[keyA coordA]|]; [|done].
  destruct (resolvedCoord _ _) as [[keyB coordB]|]; done.
Qed.

(** [animateTrace] as one loop over the pairs, whichever mode it runs in. *)
Lemma animateTrace_rounds haversineDistance (cables : list Cable)
    (landings : list Landing) (hops : list Hop) :
  animateTrace haversineDistance cables landings hops
  = forPairs hops
      (if (length cables =? 0)%nat || (length landings =? 0)%nat
       then directLine
       else routePair haversineDistance
              (buildCableGraph haversineDistance cables landings).1
              (buildCableGraph haversineDistance cables landings).2).
Proof.
  unfold animateTrace. destruct (length hops <? 2)%nat eqn:Hlen.
  - apply Nat.ltb_lt in Hlen. by rewrite forPairs_nil_or_one.
  - by destruct (_ || _).
Qed.

(** Away from zero the planner does route every pair: whenever the guard
    [a.lat && a.lon && b.lat && b.lon] holds for the hops at [i] and [i + 1],
    some segment of that round is drawn. *)
Lemma animateTrace_routes_guarded_pair haversineDistance (cables : list Cable)
    (landings : list Landing) (hops : list Hop) (i : nat) (a b : Hop) :
  hops !! i = Some a -> hops !! (i + 1) = Some b ->
  pairHasCoordinates a b = true ->
  exists segment round,
    segment ∈ round /\
    (round = directLine i a b \/
     round = routePair haversineDistance
               (buildCableGraph haversineDistance cables landings).1
               (buildCableGraph haversineDistance cables landings).2 i a b) /\
    forall s, s ∈ round -> s ∈ animateTrace haversineDistance cables landings hops.
Proof.
  intros Ha Hb Hab. rewrite animateTrace_rounds.
  destruct (_ || _).
  - exists (mkSegment ("direct-" +:+ pretty i) [hopCoord a; hopCoord b]),
      (directLine i a b).
    split; [rewrite directLine_draws by done; by left|].
    split; [by left|]. by apply forPairs_round.
  - pose proof (routePair_draws (buildCableGraph haversineDistance cables landings).1
                  (buildCableGraph haversineDistance cables landings).2
                  haversineDistance i a b Hab) as Hne.
    destruct (routePair _ _ _ i a b) as [|segment rest] eqn:Hround; [done|].
    exists segment, (segment :: rest).
    split; [by left|]. split; [by right|].
    intros s Hs. apply (forPairs_round hops _ i a b Ha Hb). by rewrite Hround.
Qed.

Lemma equator_pair_fails_guard :
  pairHasCoordinates hopOnEquator hopNorth = false /\
  pairHasCoordinates hopNorth hopOnEquator = false /\
  pairHasCoordinates hopOnEquator hopAtFar = false.
Proof. by vm_compute. Qed.

(** C1, at a hop on the equator.  Both hops carry a latitude and a longitude
    (the marker loop, which tests [typeof hop.lat === 'number'], places a
    marker for each), yet [animateTrace] draws nothing for the pair, with any
    datasets: its guard [a.lat && a.lon && b.lat && b.lon] takes the latitude
    0 for a missing one. *)
Theorem animateTrace_leaves_equator_pair_unrouted haversineDistance
    (cables : list Cable) (landings : list Landing) :
  hasMarker hopOnEquator = true /\ hasMarker hopNorth = true /\
  animateTrace haversineDistance cables landings [hopOnEquator; hopNorth] = [].
Proof.
  split; [done|]. split; [done|].
  rewrite animateTrace_rounds, forPairs_two.
  destruct equator_pair_fails_guard as (Hskip & _ & _).
  destruct (_ || _); [by apply directLine_skips|by apply routePair_skips].
Qed.

(** C9, at a hop on the equator.  With no cables (and likewise with no
    landings) the planner is in its fall-back mode, where each of the two
    pairs of these three located hops is due one direct line; none is drawn:
    the guard [a.lat && a.lon && b.lat && b.lon] takes the latitude 0 for a
    missing one ([equator_pair_fails_guard]). *)
Theorem animateTrace_fallback_skips_equator_pairs haversineDistance
    (cables : list Cable) (landings : list Landing) :
  hasMarker hopNorth = true /\ hasMarker hopOnEquator = true /\
  animateTrace haversineDistance [] landings [hopNorth; hopOnEquator; hopNorth] = [] /\
  animateTrace haversineDistance cables [] [hopNorth; hopOnEquator; hopNorth] = [].
Proof.
  destruct equator_pair_fails_guard as (Hskip & Hskip' & _).
  split; [done|]. split; [done|].
  split; rewrite animateTrace_rounds, forPairs_three.
  - simpl. by rewrite !directLine_skips.
  - rewrite orb_true_r. by rewrite !directLine_skips.
Qed.

(** In fall-back mode a pair that passes the guard gets exactly its one
    direct line. *)
Lemma animateTrace_fallback_two_hops haversineDistance (cables : list Cable)
    (landings : list Landing) (a b : Hop) :
  cables = [] \/ landings = [] ->
  pairHasCoordinates a b = true ->
  animateTrace haversineDistance cables landings [a; b]
  = [mkSegment "direct-0" [hopCoord a; hopCoord b]].
Proof.
  intros Hempty Hab. rewrite animateTrace_rounds, forPairs_two.
  replace ((length cables =? 0)%nat || (length landings =? 0)%nat) with true.
  - by rewrite directLine_draws.
  - destruct Hempty as [-> | ->]; [done|]. by rewrite orb_true_r.
Qed.

(** *** Two landings and one cable *)

Lemma coordKey_not_empty (c : Coord) : coordKey c <> "".
Proof.
  unfold coordKey. destruct (JsNumber.toFixed 3 c.1); discriminate.
Qed.

Section TwoLandings.

Variable haversineDistance : LatLon -> LatLon -> float.
Variables (landingA landingB : Landing) (cable : Cable) (a b : Hop).

Let A := landingCoordinates landingA.
Let B := landingCoordinates landingB.
Let pA := mkLatLon A.2 A.1.
Let pB := mkLatLon B.2 B.1.
Let coordinates := cableCoordinates (cableGeometry cable).
Let fwd := mkEdge (coordKey B) (cableProperName cable) coordinates.
Let bwd := mkEdge (coordKey A) (cableProperName cable) (reverse coordinates).

(** The cable starts at landing A's key and ends at landing B's. *)
Hypothesis cable_joins :
  inserted haversineDistance [landingA; landingB] cable (coordKey A) (coordKey B).

(** The hops sit on the landings and pass the guard of the loop. *)
Hypothesis a_at_A : hopCoord a = A.
Hypothesis b_at_B : hopCoord b = B.
Hypothesis guard : pairHasCoordinates a b = true.

(** Each landing is nearer to itself than the other landing is. *)
Hypothesis A_near_A : PrimFloat.ltb (haversineDistance pA pA) infinity = true.
Hypothesis A_not_nearer_B :
  PrimFloat.ltb (haversineDistance pA pB) (haversineDistance pA pA) = false.
Hypothesis B_near_B : PrimFloat.ltb (haversineDistance pB pB) infinity = true.
Hypothesis B_nearer_B :
  PrimFloat.ltb (haversineDistance pB pB) (haversineDistance pB pA) = true.

Lemma two_keys_differ : coordKey A <> coordKey B.
Proof. by destruct cable_joins as (_ & _ & _ & _ & _ & _ & _ & _ & _ & _ & ?). Qed.

Lemma cable_has_two_points : (length coordinates <? 2)%nat = false.
Proof.
  destruct cable_joins as (sc & ec & sl & el & Hh & Hl & Hs & He & Hks & Hke & Hne).
  fold coordinates in Hh, Hl. apply Nat.ltb_ge.
  destruct coordinates as [|c [|c' rest]]; [done| |simpl; lia].
  simpl in Hh, Hl. congruence.
Qed.

Lemma two_landings_graph :
  (buildCableGraph haversineDistance [cable] [landingA; landingB]).1
  = pushEdge (coordKey B) bwd (pushEdge (coordKey A) fwd
      (ensureKey (coordKey B) (ensureKey (coordKey A) ∅))).
Proof.
  simpl. unfold addCable. fold coordinates.
  rewrite cable_has_two_points.
  destruct cable_joins as (sc & ec & sl & el & Hh & Hl & Hs & He & Hks & Hke & Hne).
  fold coordinates in Hh, Hl. rewrite Hh, Hl, Hs, He, Hks, Hke.
  by case_decide.
Qed.

Lemma two_landings_lookup (k : string) :
  (buildCableGraph haversineDistance [cable] [landingA; landingB]).1 !! k
  = if decide (k = coordKey A) then Some [fwd]
    else if decide (k = coordKey B) then Some [bwd]
    else None.
Proof.
  rewrite two_landings_graph.
  rewrite link_lookup, lookup_empty by apply two_keys_differ.
  by repeat case_decide.
Qed.

Lemma two_landings_coordMap :
  (buildCableGraph haversineDistance [cable] [landingA; landingB]).2
  = [(coordKey A, A); (coordKey B, B)].
Proof.
  simpl. fold A B. case_decide as Heq; [|done].
  by apply two_keys_differ in Heq.
Qed.

(** The path finder returns the two landing keys, in order. *)
Lemma two_landings_path :
  findCablePathDFS
    (buildCableGraph haversineDistance [cable] [landingA; landingB]).1
    (coordKey A) (coordKey B) ∅
  = Some [coordKey A; coordKey B].
Proof.
  pose proof two_keys_differ as Hne.
  rewrite findCablePathDFS_eq, two_landings_lookup.
  repeat case_decide; try done; try set_solver. simpl.
  case_decide; [set_solver|].
  rewrite findCablePathDFS_eq. by case_decide.
Qed.

Lemma closest_to_a :
  (getClosestCoordKey haversineDistance [(coordKey A, A); (coordKey B, B)] pA).1
  = Some (coordKey A).
Proof.
  unfold getClosestCoordKey, closerKey. simpl. fold pA pB.
  rewrite A_near_A. simpl. by rewrite A_not_nearer_B.
Qed.

Lemma closest_to_b :
  (getClosestCoordKey haversineDistance [(coordKey A, A); (coordKey B, B)] pB).1
  = Some (coordKey B).
Proof.
  unfold getClosestCoordKey, closerKey. simpl. fold pA pB.
  destruct (PrimFloat.ltb (haversineDistance pB pA) infinity); simpl.
  - by rewrite B_nearer_B.
  - by rewrite B_near_B.
Qed.

(** With hops on the two landings, away from zero, the planner draws the
    three legs: hop to landing, the cable's own line, landing to hop. *)
Lemma animateTrace_two_landings :
  animateTrace haversineDistance [cable] [landingA; landingB] [a; b]
  = [mkSegment "to-0" [hopCoord a; A];
     mkSegment "cable-0-0" coordinates;
     mkSegment "from-0" [B; hopCoord b]].
Proof.
  pose proof two_keys_differ as Hne.
  rewrite animateTrace_rounds, forPairs_two. cbn [length Nat.eqb orb].
  unfold routePair. rewrite guard. cbn [negb].
  rewrite two_landings_coordMap.
  replace (mkLatLon (numberOf (hopLat a)) (numberOf (hopLon a))) with pA
    by (unfold pA; rewrite <- a_at_A; done).
  replace (mkLatLon (numberOf (hopLat b)) (numberOf (hopLon b))) with pB
    by (unfold pB; rewrite <- b_at_B; done).
  unfold resolvedCoord. rewrite closest_to_a, closest_to_b.
  rewrite (decide_False (P := coordKey A = "")) by apply coordKey_not_empty.
  rewrite (decide_False (P := coordKey B = "")) by apply coordKey_not_empty.
  cbn [coordMapGet fmap option_fmap option_map].
  rewrite !decide_True by done. rewrite decide_False by done.
  rewrite decide_True by done. cbn [fmap option_fmap option_map].
  rewrite two_landings_path. cbn [length Nat.ltb Nat.leb].
  unfold cableLegs. cbn [length Nat.sub seq flat_map lookup list_lookup Nat.add].
  rewrite two_landings_lookup, decide_True by done.
  cbn [mbind option_bind List.find]. unfold fwd at 1. cbn [to].
  rewrite bool_decide_eq_true_2 by done.
  unfold animateLine, fwd. cbn [geometry].
  rewrite cable_has_two_points. reflexivity.
Qed.

End TwoLandings.

(** The scenario on the sample data: Alpha and Beta joined by the cable
    "AB", with a hop on each. *)
Example animateTrace_alpha_beta :
  animateTrace flatDistance [cableAB] [alpha; beta] [hopAtAlpha; hopAtBeta]
  = [mkSegment "to-0" [(10.0001, 20.0001); (10.0001, 20.0001)]%float;
     mkSegment "cable-0-0" [(10.01, 20.01); (30, 25); (55.4, 21.2)]%float;
     mkSegment "from-0" [(55.5, 21.25); (55.5, 21.25)]%float].
Proof.
  apply (animateTrace_two_landings flatDistance alpha beta cableAB
           hopAtAlpha hopAtBeta); try by vm_compute.
  exists (10.01, 20.01)%float, (55.4, 21.2)%float,
    (mkClosest keyAlpha (10.0001, 20.0001)%float "Alpha"),
    (mkClosest keyBeta (55.5, 21.25)%float "Beta").
  repeat split; by vm_compute.
Qed.

(** C8, with the first landing on the equator.  The two landings are joined
    by the one cable and the path finder returns the two keys, but for the
    hops that sit exactly on the landings nothing is drawn, whatever the
    distance function: the hop on the equator fails the guard of the loop,
    which takes the latitude 0 for a missing one
    ([equator_pair_fails_guard]). *)
Theorem animateTrace_two_landings_on_equator :
  hopCoord hopOnEquator = landingCoordinates equatorLanding /\
  hopCoord hopAtFar = landingCoordinates farLanding /\
  findCablePathDFS
    (buildCableGraph flatDistance [equatorCable] [equatorLanding; farLanding]).1
    "10.000,0.000" "55.000,20.000" ∅
  = Some ["10.000,0.000"; "55.000,20.000"] /\
  forall haversineDistance,
    animateTrace haversineDistance [equatorCable] [equatorLanding; farLanding]
      [hopOnEquator; hopAtFar] = [].
Proof.
  split; [done|]. split; [done|]. split; [by vm_compute|].
  intros haversineDistance. rewrite animateTrace_rounds, forPairs_two.
  destruct equator_pair_fails_guard as (_ & _ & Hskip).
  destruct (_ || _); [by apply directLine_skips|by apply routePair_skips].
Qed.

(** ** Playback on the map: theorems *)

Lemma drawSegment_sources (map : MapSurface) (segment : Segment) (id : string) :
  sources (drawSegment map segment) !! id
  = if decide (segmentId segment = id) then Some (segmentCoords segment)
    else sources map !! id.
Proof.
  unfold drawSegment. simpl. rewrite lookup_insert.
  case_decide; [done|].
  repeat (case_decide; simpl); rewrite ?lookup_delete_ne; done.
Qed.

Lemma drawSegment_layers (map : MapSurface) (segment : Segment) (id : string) :
  layers (drawSegment map segment) !! id
  = if decide (segmentId segment = id) then Some id else layers map !! id.
Proof.
  unfold drawSegment. simpl. rewrite lookup_insert.
  case_decide; [by subst|].
  repeat (case_decide; simpl); rewrite ?lookup_delete_ne; done.
Qed.

(** After a sequence of calls every id that was drawn holds its last line,
    and every other source is as it was: nothing is taken off the map. *)
Lemma play_sources (segments : list Segment) (map : MapSurface) (id : string) :
  sources (play segments map) !! id
  = match lastDrawn id segments with
    | Some line => Some line
    | None => sources map !! id
    end.
Proof.
  revert map. induction segments as [|segment rest IH]; intros map; [done|].
  unfold play in *. simpl. rewrite IH, drawSegment_sources.
  destruct (lastDrawn id rest); [done|]. by case_decide.
Qed.

Lemma play_layers (segments : list Segment) (map : MapSurface) (id : string) :
  layers (play segments map) !! id
  = match lastDrawn id segments with
    | Some _ => Some id
    | None => layers map !! id
    end.
Proof.
  revert map. induction segments as [|segment rest IH]; intros map; [done|].
  unfold play in *. simpl. rewrite IH, drawSegment_layers.
  destruct (lastDrawn id rest); [done|]. by case_decide.
Qed.

Lemma lastDrawn_None (id : string) (segments : list Segment) :
  id ∉ segmentId <$> segments -> lastDrawn id segments = None.
Proof.
  induction segments as [|segment rest IH]; [done|].
  rewrite fmap_cons, not_elem_of_cons. intros [Hne Hrest].
  simpl. rewrite IH by done. by case_decide.
Qed.

Lemma play_app (first rest : list Segment) (map : MapSurface) :
  play (first ++ rest) map = play rest (play first map).
Proof. apply fold_left_app. Qed.

(** ** Requests while an animation is in flight *)

Lemma mapEffect_runs (s : App.State) : App.runs (App.mapEffect s) = App.runs s.
Proof. unfold App.mapEffect. by destruct (App.hops s). Qed.

Lemma mapEffect_maps (s : App.State) :
  App.maps (App.mapEffect s) = App.maps s \/
  (App.maps (App.mapEffect s) = App.maps s ++ [emptySurface] /\
   App.mapInstance (App.mapEffect s) = Some (length (App.maps s))).
Proof. unfold App.mapEffect. destruct (App.hops s); [by left|by right]. Qed.

Lemma mapEffect_mapInstance (s : App.State) (map : nat) :
  App.mapInstance (App.mapEffect s) = Some map ->
  App.mapInstance s = Some map \/ map = length (App.maps s).
Proof.
  unfold App.mapEffect. destruct (App.hops s); simpl; [by left|].
  intros [= <-]. by right.
Qed.

Ltac step_cases Hstep :=
  simpl in Hstep;
  repeat match type of Hstep with
         | context [match ?x with _ => _ end] => destruct x eqn:?
         end;
  simplify_eq; simpl in *.

Section Requests.

Variable haversineDistance : LatLon -> LatLon -> float.

Abbreviation step := (App.step haversineDistance).
Abbreviation exec := (App.exec haversineDistance).
Abbreviation drawnOn := (App.drawnOn haversineDistance).

(** A callback leaves every map in place.  The one map it may change is the
    map of the run it resumes, by the line that run draws; the one map it
    may add is new and empty. *)
Lemma step_surface (s s' : App.State) (e : App.Event) (map : nat) :
  step s e = Some s' ->
  match App.maps s !! map with
  | Some surface => App.maps s' !! map = Some (play (App.drawn map s e) surface)
  | None =>
      App.drawn map s e = [] /\
      (App.maps s' !! map = None \/ App.maps s' !! map = Some emptySurface)
  end.
Proof.
  intros Hstep.
  assert (forall s0 : App.State,
            match App.maps s0 !! map with
            | Some surface => App.maps (App.mapEffect s0) !! map = Some surface
            | None => App.maps (App.mapEffect s0) !! map = None \/
                      App.maps (App.mapEffect s0) !! map = Some emptySurface
            end) as Heffect.
  { intros s0. destruct (mapEffect_maps s0) as [->|[-> _]].
    - destruct (App.maps s0 !! map); [done|by left].
    - destruct (App.maps s0 !! map) eqn:Hmap.
      + rewrite lookup_app_l by eauto using lookup_lt_Some. done.
      + apply lookup_ge_None in Hmap.
        destruct (decide (map = length (App.maps s0))) as [->|Hne].
        * right. by apply list_lookup_middle.
        * left. apply lookup_ge_None. rewrite length_app. simpl. lia. }
  destruct e as [|hop| | | |cables landings|k|k].
  - injection Hstep as <-. specialize (Heffect
      (App.mkState [] true false (App.mapInstance s) (App.maps s) (App.runs s))).
    simpl in *. destruct (App.maps s !! map); [done|]. by split.
  - simpl in Hstep. destruct (App.loading s); [|done]. injection Hstep as <-.
    specialize (Heffect
      (App.mkState (App.hops s ++ [hop]) true (App.mapReady s)
         (App.mapInstance s) (App.maps s) (App.runs s))).
    simpl in *. destruct (App.maps s !! map); [done|]. by split.
  - step_cases Hstep. destruct (App.maps s !! map); [done|]. split; [done|by left].
  - injection Hstep as <-. specialize (Heffect s).
    simpl. destruct (App.maps s !! map); [done|]. by split.
  - step_cases Hstep. destruct (App.maps s !! map); [done|]. split; [done|by left].
  - step_cases Hstep. destruct (App.maps s !! map); [done|]. split; [done|by left].
  - simpl in Hstep. simpl.
    destruct (App.runs s !! k) as [[map' [|segment rest]]|]; [done| |done].
    destruct (App.maps s !! map') as [surface'|] eqn:Hmap'; [|done].
    injection Hstep as <-. simpl. rewrite list_lookup_insert.
    destruct (decide (map' = map)) as [->|Hne].
    + rewrite Hmap'. rewrite decide_True; [done|].
      split; [done|]. eauto using lookup_lt_Some.
    + rewrite decide_False by naive_solver.
      destruct (App.maps s !! map); [done|]. split; [done|by left].
  - simpl in Hstep.
    destruct (App.runs s !! k) as [[map' [|segment rest]]|]; [done| |done].
    injection Hstep as <-. simpl.
    destruct (App.maps s !! map); [done|]. split; [done|by left].
Qed.

(** Over any sequence of callbacks a map holds what it held, redrawn by the
    lines drawn on it since, in order; a map made on the way starts empty. *)
Lemma exec_surface (events : list App.Event) (s s2 : App.State) (map : nat) :
  exec s events = Some s2 ->
  match App.maps s !! map with
  | Some surface => App.maps s2 !! map = Some (play (drawnOn map s events) surface)
  | None =>
      App.maps s2 !! map = None \/
      App.maps s2 !! map = Some (play (drawnOn map s events) emptySurface)
  end.
Proof.
  revert s. induction events as [|e rest IH]; intros s Hexec.
  - injection Hexec as <-. destruct (App.maps s !! map); [done|by left].
  - simpl in Hexec. simpl.
    destruct (step s e) as [s'|] eqn:Hstep; [|done].
    pose proof (step_surface _ _ _ map Hstep) as Hone.
    specialize (IH _ Hexec).
    destruct (App.maps s !! map) as [surface|].
    + rewrite Hone in IH. by rewrite play_app.
    + destruct Hone as [-> [Hnone|Hnew]]; simpl.
      * by rewrite Hnone in IH.
      * rewrite Hnew in IH. by right.
Qed.

(** A callback changes a run only if it is that run's own: the run makes
    its next call, or a call of its throws. *)
Lemma step_run (s s' : App.State) (e : App.Event) (k : nat) (run : App.Run) :
  step s e = Some s' ->
  App.runs s !! k = Some run ->
  exists run',
    App.runs s' !! k = Some run' /\
    App.runMap run' = App.runMap run /\
    App.pending run' `suffix_of` App.pending run /\
    (e <> App.AnimateLine k -> e <> App.CallFails k -> run' = run).
Proof.
  intros Hstep Hrun.
  destruct e as [|hop| | | |cables landings|k'|k'].
  - injection Hstep as <-. rewrite mapEffect_runs. simpl. by exists run.
  - simpl in Hstep. destruct (App.loading s); [|done]. injection Hstep as <-.
    rewrite mapEffect_runs. simpl. by exists run.
  - step_cases Hstep. by exists run.
  - injection Hstep as <-. rewrite mapEffect_runs. by exists run.
  - step_cases Hstep. by exists run.
  - step_cases Hstep. exists run.
    rewrite lookup_app_l by eauto using lookup_lt_Some. done.
  - simpl in Hstep.
    destruct (App.runs s !! k') as [[map' [|segment rest]]|] eqn:Hrun';
      [done| |done].
    destruct (App.maps s !! map'); [|done]. injection Hstep as <-. simpl.
    destruct (decide (k' = k)) as [->|Hne].
    + rewrite list_lookup_insert_eq by eauto using lookup_lt_Some.
      rewrite Hrun in Hrun'. injection Hrun' as ->.
      eexists. repeat split; [by apply suffix_cons_r|done].
    + rewrite list_lookup_insert_ne by done. by exists run.
  - simpl in Hstep.
    destruct (App.runs s !! k') as [[map' [|segment rest]]|] eqn:Hrun';
      [done| |done].
    injection Hstep as <-. simpl.
    destruct (decide (k' = k)) as [->|Hne].
    + rewrite list_lookup_insert_eq by eauto using lookup_lt_Some.
      rewrite Hrun in Hrun'. injection Hrun' as ->.
      eexists. repeat split; [by apply suffix_nil|done].
    + rewrite list_lookup_insert_ne by done. by exists run.
Qed.

Lemma exec_run (events : list App.Event) (s s2 : App.State) (k : nat)
    (run : App.Run) :
  exec s events = Some s2 ->
  App.runs s !! k = Some run ->
  exists run2,
    App.runs s2 !! k = Some run2 /\
    App.runMap run2 = App.runMap run /\
    App.pending run2 `suffix_of` App.pending run /\
    (App.AnimateLine k ∉ events -> App.CallFails k ∉ events -> run2 = run).
Proof.
  revert s run. induction events as [|e rest IH]; intros s run Hexec Hrun.
  - injection Hexec as <-. by exists run.
  - simpl in Hexec. destruct (step s e) as [s'|] eqn:Hstep; [|done].
    destruct (step_run _ _ _ _ _ Hstep Hrun) as (run' & Hrun' & Hmap & Hsuffix & Hsame).
    destruct (IH _ _ Hexec Hrun') as (run2 & Hrun2 & Hmap2 & Hsuffix2 & Hsame2).
    exists run2. repeat split; [done|congruence|by etrans|].
    intros [Hne Hrest]%not_elem_of_cons [Hne' Hrest']%not_elem_of_cons.
    rewrite Hsame2 by done. apply Hsame; congruence.
Qed.

(** Every run draws on a map that was made, and so does the next one. *)
Lemma step_maps_made (s s' : App.State) (e : App.Event) :
  step s e = Some s' ->
  (forall k run, App.runs s !! k = Some run ->
     App.runMap run < length (App.maps s)) ->
  (forall map, App.mapInstance s = Some map -> map < length (App.maps s)) ->
  (forall k run, App.runs s' !! k = Some run ->
     App.runMap run < length (App.maps s')) /\
  (forall map, App.mapInstance s' = Some map -> map < length (App.maps s')).
Proof.
  intros Hstep Hruns Hmap.
  assert (length (App.maps s) <= length (App.maps s')) as Hgrow.
  { destruct (decide (length (App.maps s) = 0)) as [|Hpos]; [lia|].
    destruct (App.maps s !! 0) as [surface|] eqn:H0.
    - clear H0. apply Nat.nlt_ge. intros Hlt.
      pose proof (step_surface _ _ _ (length (App.maps s')) Hstep) as Hone.
      destruct (lookup_lt_is_Some_2 (App.maps s) (length (App.maps s')) Hlt)
        as [surface' Hsurface'].
      rewrite Hsurface' in Hone. apply lookup_lt_Some in Hone. lia.
    - apply lookup_ge_None in H0. lia. }
  split.
  - intros k run Hrun.
    destruct (decide (k < length (App.runs s))) as [Hk|Hk].
    + destruct (lookup_lt_is_Some_2 _ _ Hk) as [run0 Hrun0].
      destruct (step_run _ _ _ _ _ Hstep Hrun0) as (run' & Hrun' & Heq & _).
      rewrite Hrun in Hrun'. injection Hrun' as <-.
      rewrite Heq. specialize (Hruns _ _ Hrun0). lia.
    + destruct e as [|hop| | | |cables landings|k'|k'].
      * injection Hstep as <-. rewrite mapEffect_runs in Hrun. simpl in Hrun.
        apply lookup_lt_Some in Hrun. lia.
      * simpl in Hstep. destruct (App.loading s); [|done]. injection Hstep as <-.
        rewrite mapEffect_runs in Hrun. simpl in Hrun.
        apply lookup_lt_Some in Hrun. lia.
      * step_cases Hstep. apply lookup_lt_Some in Hrun. lia.
      * injection Hstep as <-. rewrite mapEffect_runs in Hrun.
        apply lookup_lt_Some in Hrun. lia.
      * step_cases Hstep. apply lookup_lt_Some in Hrun. lia.
      * step_cases Hstep.
        apply lookup_snoc_Some in Hrun as [[Hlt _]|[_ <-]]; [lia|].
        simpl. eauto.
      * simpl in Hstep.
        destruct (App.runs s !! k') as [[map' [|segment rest]]|]; [done| |done].
        destruct (App.maps s !! map'); [|done]. injection Hstep as <-.
        simpl in Hrun. apply lookup_lt_Some in Hrun.
        rewrite length_insert in Hrun. lia.
      * simpl in Hstep.
        destruct (App.runs s !! k') as [[map' [|segment rest]]|]; [done| |done].
        injection Hstep as <-.
        simpl in Hrun. apply lookup_lt_Some in Hrun.
        rewrite length_insert in Hrun. lia.
  - intros map Hmap'.
    assert (forall s0 : App.State,
              (forall map, App.mapInstance s0 = Some map ->
                 map < length (App.maps s0)) ->
              App.mapInstance (App.mapEffect s0) = Some map ->
              map < length (App.maps (App.mapEffect s0))) as Heffect.
    { intros s0 Hs0 Hin. unfold App.mapEffect in *.
      destruct (App.hops s0); simpl in *; [eauto|].
      injection Hin as <-. rewrite length_app. simpl. lia. }
    destruct e as [|hop| | | |cables landings|k'|k'].
    + injection Hstep as <-. by apply Heffect in Hmap'.
    + simpl in Hstep. destruct (App.loading s); [|done]. injection Hstep as <-.
      by apply Heffect in Hmap'.
    + step_cases Hstep. eauto.
    + injection Hstep as <-. by apply Heffect in Hmap'.
    + step_cases Hstep. eauto.
    + step_cases Hstep. eauto.
    + simpl in Hstep.
      destruct (App.runs s !! k') as [[map' [|segment rest]]|]; [done| |done].
      destruct (App.maps s !! map'); [|done]. injection Hstep as <-.
      simpl in *. rewrite length_insert. eauto.
    + simpl in Hstep.
      destruct (App.runs s !! k') as [[map' [|segment rest]]|]; [done| |done].
      injection Hstep as <-. simpl in *. eauto.
Qed.

Lemma exec_maps_made (events : list App.Event) (s s2 : App.State) :
  exec s events = Some s2 ->
  (forall k run, App.runs s !! k = Some run ->
     App.runMap run < length (App.maps s)) ->
  (forall map, App.mapInstance s = Some map -> map < length (App.maps s)) ->
  (forall k run, App.runs s2 !! k = Some run ->
     App.runMap run < length (App.maps s2)) /\
  (forall map, App.mapInstance s2 = Some map -> map < length (App.maps s2)).
Proof.
  revert s. induction events as [|e rest IH]; intros s Hexec Hruns Hmap.
  - by injection Hexec as <-.
  - simpl in Hexec. destruct (step s e) as [s'|] eqn:Hstep; [|done].
    destruct (step_maps_made _ _ _ Hstep Hruns Hmap). eauto.
Qed.

(** A run with a call left can always make it: no request, hop or change of
    style takes the call away. *)
Lemma AnimateLine_enabled (history : list App.Event) (s : App.State) (k : nat)
    (run : App.Run) :
  exec App.mounted history = Some s ->
  App.runs s !! k = Some run ->
  App.pending run <> [] ->
  is_Some (step s (App.AnimateLine k)).
Proof.
  intros Hexec Hrun Hpending.
  destruct (exec_maps_made _ _ _ Hexec) as [Hruns _]; [done..|].
  specialize (Hruns _ _ Hrun).
  destruct (lookup_lt_is_Some_2 _ _ Hruns) as [surface Hsurface].
  simpl. rewrite Hrun. destruct run as [map [|segment rest]]; [done|].
  simpl in Hsurface. rewrite Hsurface. by eexists.
Qed.

(** Runs are never dropped from the list of runs. *)
Lemma step_runs_length (s s' : App.State) (e : App.Event) :
  step s e = Some s' -> length (App.runs s) <= length (App.runs s').
Proof.
  intros Hstep. apply Nat.nlt_ge. intros Hlt.
  destruct (App.runs s !! length (App.runs s')) as [run|] eqn:Hrun.
  - destruct (step_run _ _ _ _ _ Hstep Hrun) as (run' & Hrun' & _).
    apply lookup_lt_Some in Hrun'. lia.
  - apply lookup_ge_None in Hrun. lia.
Qed.

(** A line drawn on a map is a call that a run on that map had pending, or
    a call of a run that started on that map since. *)
Lemma drawnOn_by_runs (events : list App.Event) (s s2 : App.State)
    (map : nat) (segment : Segment) :
  exec s events = Some s2 ->
  segment ∈ drawnOn map s events ->
  (exists k run,
     App.runs s !! k = Some run /\ App.runMap run = map /\
     segment ∈ App.pending run) \/
  (exists k run2,
     length (App.runs s) <= k /\ App.runs s2 !! k = Some run2 /\
     App.runMap run2 = map).
Proof.
  revert s. induction events as [|e rest IH]; intros s Hexec Hin.
  - by apply elem_of_nil in Hin.
  - simpl in Hexec, Hin. destruct (step s e) as [s'|] eqn:Hstep; [|done].
    apply elem_of_app in Hin as [Hin|Hin].
    + left. destruct e as [|hop| | | |cables landings|k|k];
        try by apply elem_of_nil in Hin.
      simpl in Hin.
      destruct (App.runs s !! k) as [[map' [|first pending]]|] eqn:Hrun;
        try by apply elem_of_nil in Hin.
      destruct (decide (map' = map)) as [->|]; [|by apply elem_of_nil in Hin].
      apply list_elem_of_singleton in Hin as ->.
      exists k. eexists. split; [done|]. split; [done|]. simpl. by left.
    + pose proof (step_runs_length _ _ _ Hstep) as Hgrow.
      destruct (IH _ Hexec Hin)
        as [(k & run' & Hrun' & Hmap & Hpending)|(k & run2 & Hk & Hrun2 & Hmap)].
      * destruct (App.runs s !! k) as [run|] eqn:Hrun.
        -- left. exists k, run. split; [done|].
           destruct (step_run _ _ _ _ _ Hstep Hrun)
             as (run0 & Hrun0 & Hmap0 & [made Hmade] & _).
           rewrite Hrun' in Hrun0. injection Hrun0 as <-.
           split; [congruence|]. rewrite Hmade. apply elem_of_app. by right.
        -- right. apply lookup_ge_None in Hrun.
           destruct (exec_run _ _ _ _ _ Hexec Hrun')
             as (run2 & Hrun2 & Hmap2 & _).
           exists k, run2. split; [done|]. split; [done|]. congruence.
      * right. exists k, run2. split; [lia|done].
Qed.

Lemma exec_app (first rest : list App.Event) (s : App.State) :
  exec s (first ++ rest)
  = match exec s first with
    | Some s' => exec s' rest
    | None => None
    end.
Proof.
  revert s. induction first as [|e first IH]; intros s; [done|].
  simpl. destruct (step s e); [apply IH|done].
Qed.

End Requests.




(** ** Order on distances *)

(** [<] on doubles is transitive and irreflexive; a comparison with [NaN] is
    false on either side. *)
Lemma SFltb_trans (a b c : spec_float) :
  SFltb a b = true -> SFltb b c = true -> SFltb a c = true.
Proof.
  unfold SFltb, SFcompare.
  destruct a as [sa|sa| |sa ma ea], b as [sb|sb| |sb mb eb],
    c as [sc|sc| |sc mc ec];
    try destruct sa; try destruct sb; try destruct sc;
    try discriminate; try reflexivity;
    change (PosDef.Pos.compare_cont Eq ?x ?y) with (Pos.compare x y);
    destruct (Z.compare_spec ea eb), (Z.compare_spec eb ec),
      (Z.compare_spec ea ec);
    try discriminate; try reflexivity; try lia;
    destruct (Pos.compare_spec ma mb), (Pos.compare_spec mb mc),
      (Pos.compare_spec ma mc);
    simpl; try discriminate; try reflexivity; try lia.
Qed.

Lemma ltb_trans (x y z : float) :
  PrimFloat.ltb x y = true -> PrimFloat.ltb y z = true ->
  PrimFloat.ltb x z = true.
Proof. rewrite !ltb_spec. apply SFltb_trans. Qed.

Lemma ltb_irrefl (x : float) : PrimFloat.ltb x x = false.
Proof.
  rewrite ltb_spec. unfold SFltb, SFcompare.
  destruct (Prim2SF x) as [s|s| |s m e]; try destruct s; try reflexivity;
    rewrite Z.compare_refl;
    change (PosDef.Pos.compare_cont Eq ?x ?y) with (Pos.compare x y);
    rewrite Pos.compare_refl; reflexivity.
Qed.

(** Nothing that is not below [z] is below something below [z]. *)
Lemma ltb_not_below (x y z : float) :
  PrimFloat.ltb x z = false -> PrimFloat.ltb y z = true ->
  PrimFloat.ltb x y = false.
Proof.
  intros Hxz Hyz. destruct (PrimFloat.ltb x y) eqn:Hxy; [|done].
  by rewrite (ltb_trans x y z Hxy Hyz) in Hxz.
Qed.

Lemma below_threshold_is_finite (x : float) :
  PrimFloat.ltb x PROXIMITY_THRESHOLD = true -> PrimFloat.ltb x infinity = true.
Proof. intros Hx. by apply (ltb_trans x PROXIMITY_THRESHOLD infinity). Qed.

(** ** Nearest landing: theorems *)

Section Nearest.

Variable haversineDistance : LatLon -> LatLon -> float.

(** *** [getClosestCoordKey] *)

Section ClosestKey.

Variable p : LatLon.

Let distanceTo (entry : string * Coord) : float :=
  haversineDistance p (mkLatLon entry.2.2 entry.2.1).

(** What holds of [(closest, minDist)] after the entries [seen]. *)
Let keyInvariant (seen : CoordMap) (state : option string * float) : Prop :=
  (forall entry, entry ∈ seen -> PrimFloat.ltb (distanceTo entry) state.2 = false) /\
  match state.1 with
  | None => state.2 = infinity
  | Some k => exists c, (k, c) ∈ seen /\ state.2 = distanceTo (k, c)
  end.

Lemma closerKey_invariant (seen : CoordMap) (state : option string * float)
    (entry : string * Coord) :
  keyInvariant seen state ->
  keyInvariant (seen ++ [entry]) (closerKey haversineDistance p state entry).
Proof.
  intros [Hmin Hkey]. unfold closerKey. fold (distanceTo entry).
  destruct (PrimFloat.ltb (distanceTo entry) state.2) eqn:Hlt; split; simpl.
  - intros e [He | ->%list_elem_of_singleton]%elem_of_app.
    + by eapply ltb_not_below; [apply Hmin|].
    + apply ltb_irrefl.
  - exists entry.2. destruct entry as [k c]. split; [|done].
    apply elem_of_app. right. by left.
  - intros e [He | ->%list_elem_of_singleton]%elem_of_app; [by apply Hmin|done].
  - destruct state.1 as [k|]; [|done].
    destruct Hkey as (c & Hin & Hd). exists c. split; [|done].
    apply elem_of_app. by left.
Qed.

Lemma fold_closerKey_invariant (todo seen : CoordMap)
    (state : option string * float) :
  keyInvariant seen state ->
  keyInvariant (seen ++ todo)
    (fold_left (closerKey haversineDistance p) todo state).
Proof.
  revert seen state. induction todo as [|entry todo IH]; intros seen state Hinv.
  - by rewrite app_nil_r.
  - simpl. rewrite (assoc_L (++) seen [entry] todo : seen ++ entry :: todo = _).
    by apply IH, closerKey_invariant.
Qed.

Lemma fold_closerKey_no_update (todo : CoordMap) :
  (forall entry, entry ∈ todo ->
     PrimFloat.ltb (distanceTo entry) infinity = false) ->
  fold_left (closerKey haversineDistance p) todo (None, infinity)
  = (None, infinity).
Proof.
  induction todo as [|entry todo IH]; intros Hfar; [done|].
  simpl. unfold closerKey at 2. fold (distanceTo entry). simpl.
  rewrite (Hfar entry) by (by left). apply IH. intros e He. apply Hfar. by right.
Qed.

End ClosestKey.

Lemma getClosestCoordKey_key_in_coordMap (coordMap : CoordMap) (p : LatLon)
    (k : string) :
  (getClosestCoordKey haversineDistance coordMap p).1 = Some k ->
  exists c, (k, c) ∈ coordMap.
Proof.
  intros Hres.
  destruct (fold_closerKey_invariant p coordMap [] (None, infinity))
    as [_ Hkey]; [by split; [intros e He; apply elem_of_nil in He|]|].
  unfold getClosestCoordKey in Hres. rewrite app_nil_l, Hres in Hkey.
  destruct Hkey as (c & Hin & _). by exists c.
Qed.

(** X1: when [getClosestCoordKey] returns a key, the key is one of
    [coordMap], the distance returned with it is the distance from the point
    to an entry under that key, and no entry of [coordMap] is strictly
    closer to the point. *)
Theorem getClosestCoordKey_nearest (coordMap : CoordMap) (p : LatLon)
    (k : string) (d : float) :
  getClosestCoordKey haversineDistance coordMap p = (Some k, d) ->
  (exists c, (k, c) ∈ coordMap /\
     d = haversineDistance p (mkLatLon c.2 c.1)) /\
  forall k' c', (k', c') ∈ coordMap ->
    PrimFloat.ltb (haversineDistance p (mkLatLon c'.2 c'.1)) d = false.
Proof.
  intros Hres.
  destruct (fold_closerKey_invariant p coordMap [] (None, infinity))
    as [Hmin Hkey]; [by split; [intros e He; apply elem_of_nil in He|]|].
  unfold getClosestCoordKey in Hres. rewrite app_nil_l, Hres in Hmin, Hkey.
  simpl in Hmin, Hkey. split; [done|].
  intros k' c' Hin. apply (Hmin (k', c') Hin).
Qed.

(** X2: [getClosestCoordKey] returns no key, and the distance [Infinity],
    exactly when no entry of [coordMap] lies at a distance below [Infinity]:
    when [coordMap] is empty, or every distance is [Infinity] or [NaN]. *)
Theorem getClosestCoordKey_none_iff (coordMap : CoordMap) (p : LatLon) :
  ((getClosestCoordKey haversineDistance coordMap p).1 = None <->
   forall k c, (k, c) ∈ coordMap ->
     PrimFloat.ltb (haversineDistance p (mkLatLon c.2 c.1)) infinity = false) /\
  ((getClosestCoordKey haversineDistance coordMap p).1 = None ->
   (getClosestCoordKey haversineDistance coordMap p).2 = infinity).
Proof.
  destruct (fold_closerKey_invariant p coordMap [] (None, infinity))
    as [Hmin Hkey]; [by split; [intros e He; apply elem_of_nil in He|]|].
  rewrite app_nil_l in Hmin, Hkey. unfold getClosestCoordKey.
  split; [split|].
  - intros Hnone k c Hin. rewrite Hnone in Hkey. rewrite <- Hkey.
    apply (Hmin (k, c) Hin).
  - intros Hfar. rewrite fold_closerKey_no_update; [done|].
    intros [k c] Hin. by apply (Hfar k c).
  - intros Hnone. by rewrite Hnone in Hkey.
Qed.

(** *** [findClosestLanding] *)

Section ClosestLanding.

Variable coord : Coord.

Let distanceOf (landing : Landing) : float :=
  haversineDistance (mkLatLon coord.2 coord.1)
    (mkLatLon (landingCoordinates landing).2 (landingCoordinates landing).1).

Let closestOf (landing : Landing) : ClosestLanding :=
  mkClosest (coordKey (landingCoordinates landing))
    (landingCoordinates landing) (landingName landing).

(** What holds of [(closest, minDist)] after the landings [seen]. *)
Let landingInvariant (seen : list Landing)
    (state : option ClosestLanding * float) : Prop :=
  (forall landing, landing ∈ seen ->
     PrimFloat.ltb (distanceOf landing) state.2 = false \/
     PrimFloat.ltb (distanceOf landing) PROXIMITY_THRESHOLD = false) /\
  match state.1 with
  | None => state.2 = infinity
  | Some closest =>
      exists landing, landing ∈ seen /\ closest = closestOf landing /\
        state.2 = distanceOf landing /\
        PrimFloat.ltb (distanceOf landing) PROXIMITY_THRESHOLD = true
  end.

Lemma closerLanding_invariant (seen : list Landing)
    (state : option ClosestLanding * float) (landing : Landing) :
  landingInvariant seen state ->
  landingInvariant (seen ++ [landing])
    (closerLanding haversineDistance coord state landing).
Proof.
  intros [Hmin Hkey]. unfold closerLanding. fold (distanceOf landing).
  destruct (PrimFloat.ltb (distanceOf landing) state.2) eqn:Hlt;
    destruct (PrimFloat.ltb (distanceOf landing) PROXIMITY_THRESHOLD) eqn:Hnear;
    simpl; split; simpl.
  - intros l [Hl | ->%list_elem_of_singleton]%elem_of_app.
    + destruct (Hmin l Hl) as [Hfar|Hfar]; [left|by right].
      by eapply ltb_not_below.
    + left. apply ltb_irrefl.
  - exists landing. split; [|done]. apply elem_of_app. right. by left.
  - intros l [Hl | ->%list_elem_of_singleton]%elem_of_app; [by apply Hmin|by right].
  - destruct state.1 as [c|]; [|done].
    destruct Hkey as (l & Hin & ?). exists l. split; [|done].
    apply elem_of_app. by left.
  - intros l [Hl | ->%list_elem_of_singleton]%elem_of_app; [by apply Hmin|by left].
  - destruct state.1 as [c|]; [|done].
    destruct Hkey as (l & Hin & ?). exists l. split; [|done].
    apply elem_of_app. by left.
  - intros l [Hl | ->%list_elem_of_singleton]%elem_of_app; [by apply Hmin|by left].
  - destruct state.1 as [c|]; [|done].
    destruct Hkey as (l & Hin & ?). exists l. split; [|done].
    apply elem_of_app. by left.
Qed.

Lemma fold_closerLanding_invariant (todo seen : list Landing)
    (state : option ClosestLanding * float) :
  landingInvariant seen state ->
  landingInvariant (seen ++ todo)
    (fold_left (closerLanding haversineDistance coord) todo state).
Proof.
  revert seen state. induction todo as [|landing todo IH]; intros seen state Hinv.
  - by rewrite app_nil_r.
  - simpl.
    rewrite (assoc_L (++) seen [landing] todo : seen ++ landing :: todo = _).
    by apply IH, closerLanding_invariant.
Qed.

Lemma fold_closerLanding_no_update (todo : list Landing) :
  (forall landing, landing ∈ todo ->
     PrimFloat.ltb (distanceOf landing) PROXIMITY_THRESHOLD = false) ->
  fold_left (closerLanding haversineDistance coord) todo (None, infinity)
  = (None, infinity).
Proof.
  induction todo as [|landing todo IH]; intros Hfar; [done|].
  simpl. unfold closerLanding at 2. fold (distanceOf landing).
  rewrite (Hfar landing) by (by left). rewrite andb_false_r.
  apply IH. intros l Hl. apply Hfar. by right.
Qed.

End ClosestLanding.

(** X3: when [findClosestLanding] returns a landing, it is one of the
    dataset, carried with its own key, coordinate and name; it lies strictly
    within the proximity threshold of the point, and no landing of the
    dataset is strictly closer to the point. *)
Theorem findClosestLanding_nearest_within_threshold (landings : list Landing)
    (coord : Coord) (closest : ClosestLanding) :
  findClosestLanding haversineDistance landings coord = Some closest ->
  exists landing,
    landing ∈ landings /\
    closest = mkClosest (coordKey (landingCoordinates landing))
                (landingCoordinates landing) (landingName landing) /\
    PrimFloat.ltb
      (haversineDistance (mkLatLon coord.2 coord.1)
         (mkLatLon (landingCoordinates landing).2 (landingCoordinates landing).1))
      PROXIMITY_THRESHOLD = true /\
    forall other, other ∈ landings ->
      PrimFloat.ltb
        (haversineDistance (mkLatLon coord.2 coord.1)
           (mkLatLon (landingCoordinates other).2 (landingCoordinates other).1))
        (haversineDistance (mkLatLon coord.2 coord.1)
           (mkLatLon (landingCoordinates landing).2
              (landingCoordinates landing).1))
      = false.
Proof.
  intros Hres.
  destruct (fold_closerLanding_invariant coord landings [] (None, infinity))
    as [Hmin Hkey]; [by split; [intros e He; apply elem_of_nil in He|]|].
  unfold findClosestLanding in Hres. rewrite app_nil_l in Hmin, Hkey.
  rewrite Hres in Hkey. destruct Hkey as (landing & Hin & -> & Hd & Hnear).
  exists landing. repeat split; try done.
  intros other Hother. rewrite Hd in Hmin.
  destruct (Hmin other Hother) as [Hfar|Hfar]; [done|].
  eapply ltb_not_below; [exact Hfar|exact Hnear].
Qed.

(** X4: [findClosestLanding] returns nothing exactly when no landing of the
    dataset lies strictly within the proximity threshold of the point. *)
Theorem findClosestLanding_none_iff (landings : list Landing) (coord : Coord) :
  findClosestLanding haversineDistance landings coord = None <->
  forall landing, landing ∈ landings ->
    PrimFloat.ltb
      (haversineDistance (mkLatLon coord.2 coord.1)
         (mkLatLon (landingCoordinates landing).2 (landingCoordinates landing).1))
      PROXIMITY_THRESHOLD = false.
Proof.
  split.
  - intros Hnone landing Hin.
    destruct (fold_closerLanding_invariant coord landings [] (None, infinity))
      as [Hmin Hkey]; [by split; [intros e He; apply elem_of_nil in He|]|].
    rewrite app_nil_l in Hmin, Hkey. unfold findClosestLanding in Hnone.
    rewrite Hnone in Hkey. rewrite Hkey in Hmin.
    destruct (Hmin landing Hin) as [Hfar|Hfar]; [|done].
    destruct (PrimFloat.ltb _ PROXIMITY_THRESHOLD) eqn:Hnear; [|done].
    by rewrite (below_threshold_is_finite _ Hnear) in Hfar.
  - intros Hfar. unfold findClosestLanding.
    by rewrite fold_closerLanding_no_update.
Qed.

End Nearest.

Lemma getClosestCoordKey_nearest_witness :
  (exists c,
     (keyGamma, c) ∈ [(keyAlpha, (10.0001, 20.0001)); (keyBeta, (55.5, 21.25));
                      (keyGamma, (100, -5))]%float /\
     (getClosestCoordKey flatDistance
        [(keyAlpha, (10.0001, 20.0001)); (keyBeta, (55.5, 21.25));
         (keyGamma, (100, -5))]%float (mkLatLon (-4) 99)).2
     = flatDistance (mkLatLon (-4) 99) (mkLatLon c.2 c.1)) /\
  forall k' c',
    (k', c') ∈ [(keyAlpha, (10.0001, 20.0001)); (keyBeta, (55.5, 21.25));
                (keyGamma, (100, -5))]%float ->
    PrimFloat.ltb (flatDistance (mkLatLon (-4) 99) (mkLatLon c'.2 c'.1))
      (getClosestCoordKey flatDistance
         [(keyAlpha, (10.0001, 20.0001)); (keyBeta, (55.5, 21.25));
          (keyGamma, (100, -5))]%float (mkLatLon (-4) 99)).2
    = false.
Proof.
  apply (getClosestCoordKey_nearest flatDistance
           [(keyAlpha, (10.0001, 20.0001)); (keyBeta, (55.5, 21.25));
            (keyGamma, (100, -5))]%float (mkLatLon (-4) 99) keyGamma).
  vm_compute. reflexivity.
Defined.

Lemma findClosestLanding_nearest_within_threshold_witness :
  exists landing,
    landing ∈ [alpha; beta; gamma] /\
    mkClosest keyAlpha (10.0001, 20.0001)%float "Alpha"
    = mkClosest (coordKey (landingCoordinates landing))
        (landingCoordinates landing) (landingName landing) /\
    PrimFloat.ltb
      (flatDistance (mkLatLon 20.01 10.01)
         (mkLatLon (landingCoordinates landing).2 (landingCoordinates landing).1))
      PROXIMITY_THRESHOLD = true /\
    forall other, other ∈ [alpha; beta; gamma] ->
      PrimFloat.ltb
        (flatDistance (mkLatLon 20.01 10.01)
           (mkLatLon (landingCoordinates other).2 (landingCoordinates other).1))
        (flatDistance (mkLatLon 20.01 10.01)
           (mkLatLon (landingCoordinates landing).2
              (landingCoordinates landing).1))
      = false.
Proof.
  apply (findClosestLanding_nearest_within_threshold flatDistance
           [alpha; beta; gamma] (10.01, 20.01)%float).
  vm_compute. reflexivity.
Defined.

(** ** The coordinate map: theorems *)

Lemma coordMapGet_set_eq (k : string) (v : Coord) (m : CoordMap) :
  coordMapGet k (coordMapSet k v m) = Some v.
Proof.
  induction m as [|[k' v'] m IH]; simpl.
  - by rewrite decide_True.
  - destruct (decide (k' = k)) as [->|Hne]; simpl.
    + by rewrite decide_True.
    + by rewrite decide_False.
Qed.

Lemma coordMapGet_set_ne (k k' : string) (v : Coord) (m : CoordMap) :
  k <> k' -> coordMapGet k' (coordMapSet k v m) = coordMapGet k' m.
Proof.
  intros Hne. induction m as [|[k0 v0] m IH]; simpl.
  - by rewrite decide_False.
  - destruct (decide (k0 = k)) as [->|Hne0]; simpl.
    + by rewrite !decide_False.
    + by rewrite IH.
Qed.

Lemma coordMapSet_keys (k : string) (v : Coord) (m : CoordMap) :
  forall k', k' ∈ (coordMapSet k v m).*1 <-> k' = k \/ k' ∈ m.*1.
Proof.
  induction m as [|[k0 v0] m IH]; intros k'; simpl.
  - set_solver.
  - destruct (decide (k0 = k)) as [->|Hne0]; simpl; [set_solver|].
    rewrite !elem_of_cons, IH. naive_solver.
Qed.

Lemma coordMapSet_NoDup (k : string) (v : Coord) (m : CoordMap) :
  NoDup m.*1 -> NoDup (coordMapSet k v m).*1.
Proof.
  induction m as [|[k0 v0] m IH]; simpl; intros Hnd.
  - apply NoDup_singleton.
  - apply NoDup_cons in Hnd as [Hk0 Hnd].
    destruct (decide (k0 = k)) as [->|Hne0]; simpl.
    + by apply NoDup_cons.
    + apply NoDup_cons. split; [|by apply IH].
      intros Hin. apply coordMapSet_keys in Hin as [?|?]; done.
Qed.

Lemma coordMapGet_elem_of (k : string) (c : Coord) (m : CoordMap) :
  NoDup m.*1 -> (k, c) ∈ m -> coordMapGet k m = Some c.
Proof.
  induction m as [|[k0 v0] m IH]; simpl; intros Hnd Hin.
  - by apply elem_of_nil in Hin.
  - apply NoDup_cons in Hnd as [Hk0 Hnd].
    apply elem_of_cons in Hin as [[= <- <-]|Hin].
    + by rewrite decide_True.
    + rewrite decide_False; [by apply IH|].
      intros ->. apply Hk0. apply list_elem_of_fmap. by exists (k, c).
Qed.

Lemma coordMapGet_Some_elem_of (k : string) (c : Coord) (m : CoordMap) :
  coordMapGet k m = Some c -> (k, c) ∈ m.
Proof.
  induction m as [|[k0 v0] m IH]; simpl; [done|].
  destruct (decide (k0 = k)) as [->|Hne0].
  - intros [= ->]. by left.
  - intros Hget. right. by apply IH.
Qed.

Section CoordMapFacts.

Variable haversineDistance : LatLon -> LatLon -> float.

Let addLanding (coordMap : CoordMap) (landing : Landing) : CoordMap :=
  coordMapSet (coordKey (landingCoordinates landing))
    (landingCoordinates landing) coordMap.

Lemma fold_addLanding_get (k : string) (landings : list Landing)
    (coordMap : CoordMap) :
  coordMapGet k (fold_left addLanding landings coordMap)
  = match last (landingsWithKey k landings) with
    | Some landing => Some (landingCoordinates landing)
    | None => coordMapGet k coordMap
    end.
Proof.
  revert coordMap.
  induction landings as [|landing landings IH]; intros coordMap; [done|].
  simpl. rewrite IH. unfold landingsWithKey. rewrite filter_cons.
  fold (landingsWithKey k landings).
  destruct (decide (coordKey (landingCoordinates landing) = k)) as [<-|Hne].
  - rewrite last_cons. destruct (last _); [done|].
    apply coordMapGet_set_eq.
  - destruct (last _); [done|]. by apply coordMapGet_set_ne.
Qed.

Lemma fold_addLanding_NoDup (landings : list Landing) (coordMap : CoordMap) :
  NoDup coordMap.*1 -> NoDup (fold_left addLanding landings coordMap).*1.
Proof.
  revert coordMap.
  induction landings as [|landing landings IH]; intros coordMap Hnd; [done|].
  simpl. by apply IH, coordMapSet_NoDup.
Qed.

Lemma built_coordMap_NoDup (cables : list Cable) (landings : list Landing) :
  NoDup (buildCableGraph haversineDistance cables landings).2.*1.
Proof. apply (fold_addLanding_NoDup landings []). constructor. Qed.

Lemma built_coordMap_get (cables : list Cable) (landings : list Landing)
    (k : string) :
  coordMapGet k (buildCableGraph haversineDistance cables landings).2
  = landingCoordinates <$> last (landingsWithKey k landings).
Proof.
  etrans; [exact (fold_addLanding_get k landings [])|].
  by destruct (last _).
Qed.

(** X5: in the [coordMap] that [buildCableGraph] returns no key occurs
    twice, and the entry under a key is the coordinate of the last landing of
    the dataset that has this key: a later landing overwrites an earlier one
    with the same key, and a key that no landing has is absent. *)
Theorem buildCableGraph_coordMap_last_wins (cables : list Cable)
    (landings : list Landing) (k : string) :
  NoDup (buildCableGraph haversineDistance cables landings).2.*1 /\
  coordMapGet k (buildCableGraph haversineDistance cables landings).2
  = landingCoordinates <$> last (landingsWithKey k landings).
Proof.
  split; [apply built_coordMap_NoDup|apply built_coordMap_get].
Qed.

End CoordMapFacts.

(** ** The cable graph: further theorems *)

Section GraphFacts.

Variable haversineDistance : LatLon -> LatLon -> float.
Variable landings : list Landing.

Lemma inserted_two_points (cable : Cable) (ks ke : string) :
  inserted haversineDistance landings cable ks ke ->
  2 <= length (cableCoordinates (cableGeometry cable)).
Proof.
  intros (sc & ec & sl & el & Hh & Hl & Hs & He & Hks & Hke & Hne).
  destruct (cableCoordinates _) as [|c [|c' rest]]; [done| |simpl; lia].
  simpl in Hh, Hl. congruence.
Qed.

Lemma inserted_keys_differ (cable : Cable) (ks ke : string) :
  inserted haversineDistance landings cable ks ke -> ks <> ke.
Proof. by intros (_ & _ & _ & _ & _ & _ & _ & _ & _ & _ & ?). Qed.

Lemma addCable_not_inserted (graph : Graph) (cable : Cable) :
  (forall ks ke, ~ inserted haversineDistance landings cable ks ke) ->
  addCable haversineDistance landings graph cable = graph.
Proof.
  intros Hnot.
  destruct (addCable_cases haversineDistance landings graph cable)
    as [->|(ks & ke & Hins & _)]; [done|].
  by destruct (Hnot ks ke).
Qed.

Lemma addCable_edgesFromCables (cables : list Cable) (graph : Graph)
    (cable : Cable) :
  cable ∈ cables ->
  edgesFromCables haversineDistance landings cables graph ->
  edgesFromCables haversineDistance landings cables
    (addCable haversineDistance landings graph cable).
Proof.
  intros Hcable Hinv.
  destruct (addCable_cases haversineDistance landings graph cable)
    as [->|(ks & ke & Hins & ->)]; [done|].
  pose proof (inserted_keys_differ _ _ _ Hins) as Hne.
  intros k edges edge. rewrite link_lookup by done.
  assert (edge ∈ default [] (graph !! k) ->
          exists c, c ∈ cables /\
            edgeOfCable haversineDistance landings c k edge) as Hold.
  { intros Hin. destruct (graph !! k) as [old|] eqn:Hk.
    - by apply (Hinv k old).
    - by apply elem_of_nil in Hin. }
  repeat case_decide; subst.
  - intros [= <-] [Hin | ->%list_elem_of_singleton]%elem_of_app.
    + by apply Hold.
    + exists cable. split; [done|]. split; [done|]. by left.
  - intros [= <-] [Hin | ->%list_elem_of_singleton]%elem_of_app.
    + by apply Hold.
    + exists cable. split; [done|]. split; [done|]. by right.
  - apply Hinv.
Qed.

Lemma fold_addCable_edgesFromCables (cables todo : list Cable) (graph : Graph) :
  (forall cable, cable ∈ todo -> cable ∈ cables) ->
  edgesFromCables haversineDistance landings cables graph ->
  edgesFromCables haversineDistance landings cables
    (fold_left (addCable haversineDistance landings) todo graph).
Proof.
  revert graph. induction todo as [|cable rest IH]; intros graph Hsub Hinv; [done|].
  simpl. apply IH; [intros c Hc; apply Hsub; by right|].
  apply addCable_edgesFromCables; [apply Hsub; by left|done].
Qed.

Lemma built_graph_edgesFromCables (cables : list Cable) :
  edgesFromCables haversineDistance landings cables
    (buildCableGraph haversineDistance cables landings).1.
Proof.
  apply fold_addCable_edgesFromCables; [done|].
  intros ? ? ? Hempty. by rewrite lookup_empty in Hempty.
Qed.

Lemma built_graph_symmetric (cables : list Cable) :
  symmetric (buildCableGraph haversineDistance cables landings).1.
Proof.
  apply fold_addCable_symmetric. intros ? ? ? ? ? Hempty.
  by rewrite lookup_empty in Hempty.
Qed.

Lemma built_graph_keysAreEndpoints (cables : list Cable) :
  keysAreEndpoints haversineDistance landings cables
    (buildCableGraph haversineDistance cables landings).1.
Proof.
  apply fold_addCable_keysAreEndpoints; [done|].
  intros ? ? Hempty. by rewrite lookup_empty in Hempty.
Qed.

Lemma built_graph_edge_shape (cables : list Cable) (k : string)
    (edges : list Edge) (edge : Edge) :
  (buildCableGraph haversineDistance cables landings).1 !! k = Some edges ->
  edge ∈ edges ->
  to edge <> k /\ 2 <= length (geometry edge).
Proof.
  intros Hk Hin.
  destruct (built_graph_edgesFromCables cables k edges edge Hk Hin)
    as (cable & Hcable & Hname & Hdir).
  destruct Hdir as [[Hins ->]|[Hins ->]];
    pose proof (inserted_keys_differ _ _ _ Hins);
    pose proof (inserted_two_points _ _ _ Hins);
    rewrite ?length_reverse; done.
Qed.

(** X6: every edge of the graph that [buildCableGraph] returns was put
    there by a cable of the dataset.  It carries that cable's name and the
    cable's flattened coordinates, in the cable's direction or reversed,
    according to which end of the cable resolved to the key it is stored
    under; its geometry has at least two points, and it never leads back to
    the key it is stored under. *)
Theorem buildCableGraph_edges_are_cables (cables : list Cable) (k : string)
    (edges : list Edge) (edge : Edge) :
  (buildCableGraph haversineDistance cables landings).1 !! k = Some edges ->
  edge ∈ edges ->
  (exists cable, cable ∈ cables /\
     edgeOfCable haversineDistance landings cable k edge) /\
  to edge <> k /\
  2 <= length (geometry edge).
Proof.
  intros Hk Hin. split; [|by eapply built_graph_edge_shape].
  by apply (built_graph_edgesFromCables cables k edges edge Hk Hin).
Qed.

(** X7: every vertex of the graph that [buildCableGraph] returns has its
    coordinate in the [coordMap] returned with it, and every edge leads to a
    key of the graph: the coordinates of the vertices of a path can always
    be looked up. *)
Theorem buildCableGraph_vertices_in_coordMap (cables : list Cable) (k : string)
    (edges : list Edge) :
  (buildCableGraph haversineDistance cables landings).1 !! k = Some edges ->
  is_Some (coordMapGet k (buildCableGraph haversineDistance cables landings).2) /\
  forall edge, edge ∈ edges ->
    is_Some ((buildCableGraph haversineDistance cables landings).1 !! to edge) /\
    is_Some (coordMapGet (to edge)
               (buildCableGraph haversineDistance cables landings).2).
Proof.
  assert (forall k' edges',
            (buildCableGraph haversineDistance cables landings).1 !! k'
            = Some edges' ->
            is_Some (coordMapGet k'
                       (buildCableGraph haversineDistance cables landings).2))
    as Hkey.
  { intros k' edges' Hk'.
    destruct (built_graph_keysAreEndpoints cables k' edges' Hk')
      as (cable & edge & _ & _ & _ & Hins).
    assert (exists landing, landing ∈ landings /\
              k' = coordKey (landingCoordinates landing))
      as (landing & Hin & ->).
    { destruct Hins as [Hins|Hins];
        by apply inserted_keys_of_landings in Hins as [? ?]. }
    rewrite built_coordMap_get.
    assert (landing ∈ landingsWithKey (coordKey (landingCoordinates landing))
                        landings) as Hmem by (by apply list_elem_of_filter).
    destruct (landingsWithKey _ landings) as [|l ls] using rev_ind.
    - by apply elem_of_nil in Hmem.
    - rewrite last_snoc. by eexists. }
  intros Hk. split; [by eapply Hkey|].
  intros [v name G] Hin.
  destruct (built_graph_symmetric cables k v name G edges Hk Hin)
    as (edges' & Hv & _).
  split; [by eexists|by eapply Hkey].
Qed.

(** X8: a cable that fails the test of the loop body leaves no trace: with
    fewer than two points (any geometry that is neither a LineString nor a
    MultiLineString has none), with an end that has no landing within the
    threshold, or with both ends at landings of one key, the dataset gives
    the same graph and coordinate map as without that cable. *)
Theorem buildCableGraph_skips_cable (before after : list Cable) (cable : Cable) :
  (length (cableCoordinates (cableGeometry cable)) < 2 \/
   (forall c, head (cableCoordinates (cableGeometry cable)) = Some c ->
      findClosestLanding haversineDistance landings c = None) \/
   (forall c, last (cableCoordinates (cableGeometry cable)) = Some c ->
      findClosestLanding haversineDistance landings c = None) \/
   (forall cs ce startLanding endLanding,
      head (cableCoordinates (cableGeometry cable)) = Some cs ->
      last (cableCoordinates (cableGeometry cable)) = Some ce ->
      findClosestLanding haversineDistance landings cs = Some startLanding ->
      findClosestLanding haversineDistance landings ce = Some endLanding ->
      key startLanding = key endLanding)) ->
  buildCableGraph haversineDistance (before ++ cable :: after) landings
  = buildCableGraph haversineDistance (before ++ after) landings.
Proof.
  intros Hskip. unfold buildCableGraph. f_equal.
  rewrite !fold_left_app. simpl. f_equal.
  apply addCable_not_inserted. intros ks ke Hins.
  pose proof (inserted_two_points _ _ _ Hins) as Hlen.
  destruct Hins as (sc & ec & sl & el & Hh & Hl & Hs & He & Hks & Hke & Hne).
  destruct Hskip as [Hshort|[Hstart|[Hend|Hsame]]].
  - lia.
  - by rewrite (Hstart sc Hh) in Hs.
  - by rewrite (Hend ec Hl) in He.
  - apply Hne. rewrite <- Hks, <- Hke. by eapply Hsame.
Qed.

End GraphFacts.

(** X9: without landings [buildCableGraph] returns the empty graph and the
    empty coordinate map whatever the cables, and without cables it returns
    the empty graph. *)
Theorem buildCableGraph_empty_datasets haversineDistance
    (cables : list Cable) (landings : list Landing) :
  buildCableGraph haversineDistance cables [] = (∅, []) /\
  (buildCableGraph haversineDistance [] landings).1 = ∅.
Proof.
  split; [|done]. unfold buildCableGraph. simpl. f_equal.
  induction cables as [|cable cables IH] using rev_ind; [done|].
  rewrite fold_left_app. simpl. rewrite IH.
  apply addCable_not_inserted.
  by intros ks ke (sc & ec & sl & el & _ & _ & Hs & _).
Qed.

Lemma buildCableGraph_edges_are_cables_witness :
  (exists cable, cable ∈ [cableAB; cableBG] /\
     edgeOfCable flatDistance [alpha; beta; gamma] cable keyBeta
       (mkEdge keyGamma "BG"
          [(55.5, 21.3); (70, 0); (80, -2); (100.1, -5)]%float)) /\
  keyGamma <> keyBeta /\
  2 <= length [(55.5, 21.3); (70, 0); (80, -2); (100.1, -5)]%float.
Proof.
  apply (buildCableGraph_edges_are_cables flatDistance [alpha; beta; gamma]
           [cableAB; cableBG] keyBeta
           [mkEdge keyAlpha "AB" (reverse [(10.01, 20.01); (30, 25); (55.4, 21.2)]%float);
            mkEdge keyGamma "BG"
              [(55.5, 21.3); (70, 0); (80, -2); (100.1, -5)]%float]
           (mkEdge keyGamma "BG"
              [(55.5, 21.3); (70, 0); (80, -2); (100.1, -5)]%float)).
  - vm_compute. reflexivity.
  - right. left.
Defined.

Lemma buildCableGraph_vertices_in_coordMap_witness :
  is_Some (coordMapGet keyAlpha
             (buildCableGraph flatDistance [cableAB] [alpha; beta; gamma]).2) /\
  forall edge,
    edge ∈ [mkEdge keyBeta "AB" [(10.01, 20.01); (30, 25); (55.4, 21.2)]%float] ->
    is_Some ((buildCableGraph flatDistance [cableAB] [alpha; beta; gamma]).1
               !! to edge) /\
    is_Some (coordMapGet (to edge)
               (buildCableGraph flatDistance [cableAB] [alpha; beta; gamma]).2).
Proof.
  apply (buildCableGraph_vertices_in_coordMap flatDistance [alpha; beta; gamma]
           [cableAB] keyAlpha).
  vm_compute. reflexivity.
Defined.

(** A cable of a single point, and one that ends far from every landing. *)
Lemma buildCableGraph_skips_cable_witness :
  buildCableGraph flatDistance
    ([cableAB] ++ mkCable (LineString [(10.01, 20.01)]%float) "stub" :: [cableBG])
    [alpha; beta; gamma]
  = buildCableGraph flatDistance ([cableAB] ++ [cableBG]) [alpha; beta; gamma]
  /\
  buildCableGraph flatDistance
    ([] ++ mkCable (LineString [(10.01, 20.01); (0, 60)]%float) "lost" :: [cableAB])
    [alpha; beta; gamma]
  = buildCableGraph flatDistance ([] ++ [cableAB]) [alpha; beta; gamma].
Proof.
  split.
  - apply buildCableGraph_skips_cable. left. simpl. lia.
  - apply buildCableGraph_skips_cable. right. right. left.
    intros c [= <-]. by vm_compute.
Defined.

(** ** Path finder: further theorems *)

Lemma findCablePathDFS_None_iff (graph : Graph) (start end_ : string) :
  findCablePathDFS graph start end_ ∅ = None <-> ~ reachable graph start end_.
Proof.
  pose proof (dfs_at_full_fuel graph end_ start ∅) as Hfull.
  split.
  - intros Hnone (q & Hq & Hnd)%reachable_simple_path.
    rewrite Hnone in Hfull. revert Hfull.
    apply dfs_complete with q; [done|done|set_solver].
  - intros Hnot. destruct (findCablePathDFS graph start end_ ∅) as [p|]; [|done].
    apply dfs_sound in Hfull as (Hpath & _); [|set_solver].
    by apply isPath_reachable in Hpath.
Qed.

(** All vertices of a walk but the last have outgoing edges. *)
Lemma isPath_init_in_dom (graph : Graph) (s e : string) (p : list string) :
  isPath graph s e p ->
  exists q, p = q ++ [e] /\ forall x, x ∈ q -> x ∈ dom graph.
Proof.
  induction 1 as [s|s m e p (es & edge & Hes & _) _ (q & -> & Hq)].
  - exists []. split; [done|]. by intros x Hx%elem_of_nil.
  - exists (s :: q). split; [done|].
    intros x [->|Hx]%elem_of_cons; [|by apply Hq].
    apply elem_of_dom. by eexists.
Qed.

Lemma NoDup_length_le_size (l : list string) (X : gset string) :
  NoDup l -> (forall x, x ∈ l -> x ∈ X) -> length l <= size X.
Proof.
  intros Hnd Hsub. rewrite <- (size_list_to_set (C := gset string) l) by done.
  apply subseteq_size. intros x Hx%elem_of_list_to_set. by apply Hsub.
Qed.

(** X10: the [visited] argument is honoured.  For an end that is not in
    [visited], a path returned by [findCablePathDFS] is a walk from start to
    end along edges of the graph that repeats no vertex and contains no
    vertex of [visited]; and when the result is [null], every such walk
    without repetition runs through a vertex of [visited]. *)
Theorem findCablePathDFS_avoids_visited (graph : Graph) (start end_ : string)
    (visited : gset string) :
  end_ ∉ visited ->
  match findCablePathDFS graph start end_ visited with
  | Some p =>
      isPath graph start end_ p /\ NoDup p /\ forall x, x ∈ p -> x ∉ visited
  | None =>
      forall p, isPath graph start end_ p -> NoDup p ->
        exists x, x ∈ p /\ x ∈ visited
  end.
Proof.
  intros Hend.
  pose proof (dfs_at_full_fuel graph end_ start visited) as Hfull.
  destruct (findCablePathDFS graph start end_ visited) as [p|].
  - by apply dfs_sound in Hfull.
  - intros p Hp Hnd.
    destruct (decide (Forall (fun x => x ∉ visited) p)) as [Hall|Hsome].
    + exfalso. revert Hfull. apply dfs_complete with p; [done|done|].
      by apply Forall_forall.
    + apply not_Forall_Exists in Hsome; [|apply _].
      apply Exists_exists in Hsome as (x & Hx & Hvis).
      exists x. split; [done|]. by apply dec_stable.
Qed.

Lemma findCablePathDFS_avoids_visited_witness :
  isPath triangle "A" "C" ["A"; "C"] /\ NoDup ["A"; "C"] /\
  forall x, x ∈ ["A"; "C"] -> x ∉ ({["B"]} : gset string).
Proof.
  pose proof (findCablePathDFS_avoids_visited triangle "A" "C" {["B"]}) as Hwit.
  assert (findCablePathDFS triangle "A" "C" {["B"]} = Some ["A"; "C"]) as Hrun
    by (by vm_compute).
  rewrite Hrun in Hwit. apply Hwit.
  intros Hin%elem_of_singleton. discriminate.
Defined.

(** X11: a path returned by [findCablePathDFS] has at most one vertex more
    than the graph has keys. *)
Theorem findCablePathDFS_path_length (graph : Graph) (start end_ : string)
    (p : list string) :
  findCablePathDFS graph start end_ ∅ = Some p ->
  1 <= length p <= S (size (dom graph)).
Proof.
  intros Hfound.
  pose proof (dfs_at_full_fuel graph end_ start ∅) as Hfull.
  rewrite Hfound in Hfull.
  apply dfs_sound in Hfull as (Hpath & Hnd & _); [|set_solver].
  destruct (isPath_init_in_dom _ _ _ _ Hpath) as (q & -> & Hq).
  apply NoDup_app in Hnd as (Hndq & _ & _).
  pose proof (NoDup_length_le_size q (dom graph) Hndq Hq).
  rewrite length_app. simpl. lia.
Qed.

Lemma findCablePathDFS_path_length_witness :
  1 <= length ["A"; "B"; "C"] <= S (size (dom triangle)).
Proof. apply (findCablePathDFS_path_length triangle "A" "C"). by vm_compute. Defined.

Lemma symmetric_reachable (graph : Graph) (a b : string) :
  symmetric graph -> reachable graph a b -> reachable graph b a.
Proof.
  intros Hsym. induction 1 as [a|a m b (es & [v name G] & Hes & Hin & <-) _ IH].
  - apply rtc_refl.
  - eapply rtc_r; [exact IH|]. simpl.
    destruct (Hsym a v name G es Hes Hin) as (es' & Hv & Hrev).
    by exists es', (mkEdge a name (reverse G)).
Qed.

(** X12: in a graph that [buildCableGraph] returns, cables can be followed
    both ways: [findCablePathDFS] finds a path from [a] to [b] exactly when
    it finds one from [b] to [a]. *)
Theorem findCablePathDFS_both_ways haversineDistance (cables : list Cable)
    (landings : list Landing) (a b : string) :
  findCablePathDFS (buildCableGraph haversineDistance cables landings).1 a b ∅
    = None <->
  findCablePathDFS (buildCableGraph haversineDistance cables landings).1 b a ∅
    = None.
Proof.
  rewrite !findCablePathDFS_None_iff.
  pose proof (built_graph_symmetric haversineDistance landings cables) as Hsym.
  split; intros Hnot Hreach; apply Hnot; by apply symmetric_reachable.
Qed.

(** ** Route planner: further theorems *)

Lemma animateLine_draws (coords : list Coord) (id : string) :
  2 <= length coords -> animateLine coords id = [mkSegment id coords].
Proof.
  intros Hlen. unfold animateLine.
  by destruct (Nat.ltb_spec (length coords) 2); [lia|].
Qed.

Lemma animateLine_elem_of (coords : list Coord) (id : string) (segment : Segment) :
  segment ∈ animateLine coords id ->
  segment = mkSegment id coords /\ 2 <= length coords.
Proof.
  unfold animateLine. destruct (Nat.ltb_spec (length coords) 2).
  - by intros Hin%elem_of_nil.
  - by intros ->%list_elem_of_singleton.
Qed.

(** Consecutive vertices of a walk are joined by an edge. *)
Lemma isPath_consecutive (graph : Graph) (s e : string) (p : list string)
    (j : nat) (u v : string) :
  isPath graph s e p -> p !! j = Some u -> p !! (j + 1) = Some v ->
  hasEdge graph u v.
Proof.
  intros Hp. revert j. induction Hp as [s|s m e p Hedge Hp IH]; intros j Hu Hv.
  - destruct j; simpl in Hv; [done|]. by destruct j.
  - destruct j as [|j]; simpl in Hu, Hv.
    + injection Hu as <-. destruct (isPath_head _ _ _ _ Hp) as [p' ->].
      simpl in Hv. by injection Hv as <-.
    + by eapply IH.
Qed.

(** The loop body of [cableLegs] for the leg [j]. *)
Lemma cableLeg_found (graph : Graph) (from next : string) (edges : list Edge) :
  graph !! from = Some edges ->
  (exists edge, edge ∈ edges /\ to edge = next) ->
  exists edge, edge ∈ edges /\ to edge = next /\
    graph !! from ≫= List.find (fun e => bool_decide (to e = next)) = Some edge.
Proof.
  intros Hfrom (edge0 & Hin0 & Hto0). rewrite Hfrom. simpl.
  destruct (List.find _ edges) as [edge|] eqn:Hfind.
  - apply find_some in Hfind as [Hin Hto%bool_decide_eq_true].
    exists edge. by rewrite <- list_elem_of_In in Hin.
  - pose proof (find_none _ _ Hfind edge0 (proj1 (list_elem_of_In _ _) Hin0))
      as Hno.
    simpl in Hno. by rewrite bool_decide_eq_true_2 in Hno.
Qed.

Lemma flat_map_singletons {A B : Type} (f : A -> list B) (g : A -> B)
    (l : list A) :
  (forall x, x ∈ l -> f x = [g x]) -> flat_map f l = g <$> l.
Proof.
  induction l as [|x l IH]; intros Hf; [done|].
  simpl. rewrite (Hf x) by (by left). simpl. f_equal.
  apply IH. intros y Hy. apply Hf. by right.
Qed.

(** X13: no leg of a found path is dropped.  In a graph that
    [buildCableGraph] returns, for a path that [findCablePathDFS] returns,
    the loop over the path draws exactly one segment for each pair of
    consecutive vertices, under the id ["cable-i-j"] for the leg [j], and its
    line is the stored geometry of an edge from the one vertex to the
    next. *)
Theorem cableLegs_one_per_leg haversineDistance (cables : list Cable)
    (landings : list Landing) (a b : string) (path : list string) (i : nat) :
  findCablePathDFS (buildCableGraph haversineDistance cables landings).1 a b ∅
    = Some path ->
  length (cableLegs (buildCableGraph haversineDistance cables landings).1 i path)
    = length path - 1 /\
  forall j segment,
    cableLegs (buildCableGraph haversineDistance cables landings).1 i path !! j
      = Some segment ->
    segmentId segment = "cable-" +:+ pretty i +:+ "-" +:+ pretty j /\
    exists from next edges edge,
      path !! j = Some from /\ path !! (j + 1) = Some next /\
      (buildCableGraph haversineDistance cables landings).1 !! from
        = Some edges /\
      edge ∈ edges /\ to edge = next /\
      segmentCoords segment = geometry edge.
Proof.
  intros Hfound.
  set (graph := (buildCableGraph haversineDistance cables landings).1) in *.
  pose proof (dfs_at_full_fuel graph b a ∅) as Hfull.
  rewrite Hfound in Hfull.
  apply dfs_sound in Hfull as (Hpath & _ & _); [|set_solver].
  assert (forall j, j ∈ seq 0 (length path - 1) ->
            exists from next edges edge,
              path !! j = Some from /\ path !! (j + 1) = Some next /\
              graph !! from = Some edges /\ edge ∈ edges /\ to edge = next /\
              graph !! from ≫= List.find (fun e => bool_decide (to e = next))
                = Some edge /\
              2 <= length (geometry edge)) as Hleg.
  { intros j Hj%elem_of_seq.
    destruct (lookup_lt_is_Some_2 path j) as [from Hfrom]; [lia|].
    destruct (lookup_lt_is_Some_2 path (j + 1)) as [next Hnext]; [lia|].
    destruct (isPath_consecutive _ _ _ _ _ _ _ Hpath Hfrom Hnext)
      as (edges & edge0 & Hedges & Hin0 & Hto0).
    destruct (cableLeg_found graph from next edges Hedges)
      as (edge & Hin & Hto & Hfind); [by exists edge0|].
    exists from, next, edges, edge. repeat split; try done.
    by destruct (built_graph_edge_shape haversineDistance landings
                   cables from edges edge Hedges Hin) as (_ & ?). }
  set (leg := fun j =>
         match path !! j, path !! (j + 1) with
         | Some from, Some next =>
             match graph !! from
                   ≫= List.find (fun e => bool_decide (to e = next)) with
             | Some edge =>
                 mkSegment ("cable-" +:+ pretty i +:+ "-" +:+ pretty j)
                   (geometry edge)
             | None => mkSegment "" []
             end
         | _, _ => mkSegment "" []
         end).
  assert (cableLegs graph i path = leg <$> seq 0 (length path - 1)) as ->.
  { unfold cableLegs. apply flat_map_singletons. intros j Hj.
    destruct (Hleg j Hj) as (from & next & edges & edge & Hf & Hn & _ & _ & _
                             & Hfind & Hlen).
    unfold leg. rewrite Hf, Hn, Hfind. by apply animateLine_draws. }
  split; [by rewrite length_fmap, length_seq|].
  intros j segment Hj. rewrite list_lookup_fmap in Hj.
  destruct (seq 0 (length path - 1) !! j) as [j'|] eqn:Hj'; [|done].
  injection Hj as <-. apply lookup_seq in Hj' as [-> Hlt]. simpl.
  destruct (Hleg j) as (from & next & edges & edge & Hf & Hn & He & Hin & Hto
                        & Hfind & Hlen); [apply elem_of_seq; lia|].
  unfold leg. rewrite Hf, Hn, Hfind. simpl. split; [done|].
  by exists from, next, edges, edge.
Qed.

Lemma forPairs_elem_of (hops : list Hop) body (segment : Segment) :
  segment ∈ forPairs hops body ->
  exists i a b, hops !! i = Some a /\ hops !! (i + 1) = Some b /\
    segment ∈ body i a b.
Proof.
  unfold forPairs. intros Hin%list_elem_of_In%in_flat_map.
  destruct Hin as (i & _ & Hin).
  destruct (hops !! i) as [a|] eqn:Ha; [|done].
  destruct (hops !! (i + 1)) as [b|] eqn:Hb; [|done].
  exists i, a, b. repeat split; [done|done|]. by apply list_elem_of_In.
Qed.

Lemma cableLegs_elem_of (graph : Graph) (i : nat) (path : list string)
    (segment : Segment) :
  segment ∈ cableLegs graph i path ->
  exists j edge,
    segment = mkSegment ("cable-" +:+ pretty i +:+ "-" +:+ pretty j)
                (geometry edge) /\
    2 <= length (geometry edge) /\ j < length path - 1.
Proof.
  unfold cableLegs. intros Hin%list_elem_of_In%in_flat_map.
  destruct Hin as (j & Hj%in_seq & Hin).
  destruct (path !! j) as [from|]; [|done].
  destruct (path !! (j + 1)) as [next|]; [|done].
  destruct (_ ≫= _) as [edge|]; [|done].
  apply list_elem_of_In, animateLine_elem_of in Hin as [-> Hlen].
  exists j, edge. repeat split; [done|lia].
Qed.

(** What a round of either loop can draw: the id names the round, and the
    line has at least two points. *)
Lemma directLine_elem_of (i : nat) (a b : Hop) (segment : Segment) :
  segment ∈ directLine i a b ->
  segmentId segment = "direct-" +:+ pretty i /\
  2 <= length (segmentCoords segment).
Proof.
  unfold directLine. destruct (pairHasCoordinates a b).
  - by intros [-> ?]%animateLine_elem_of.
  - by intros Hin%elem_of_nil.
Qed.

Lemma routePair_elem_of haversineDistance (graph : Graph) (coordMap : CoordMap)
    (i : nat) (a b : Hop) (segment : Segment) :
  segment ∈ routePair haversineDistance graph coordMap i a b ->
  (segmentId segment = "fallback-" +:+ pretty i \/
   segmentId segment = "to-" +:+ pretty i \/
   segmentId segment = "fallback-sea-" +:+ pretty i \/
   segmentId segment = "from-" +:+ pretty i \/
   exists j : nat,
     segmentId segment = "cable-" +:+ pretty i +:+ "-" +:+ pretty j) /\
  2 <= length (segmentCoords segment).
Proof.
  unfold routePair. destruct (negb _); [by intros Hin%elem_of_nil|].
  destruct (resolvedCoord _ _) as [[keyA coordA]|];
    [|intros [-> ?]%animateLine_elem_of; split; [by left|done]].
  destruct (resolvedCoord _ _) as [[keyB coordB]|];
    [|intros [-> ?]%animateLine_elem_of; split; [by left|done]].
  intros [Hin|[Hin|Hin]%elem_of_app]%elem_of_app.
  - apply animateLine_elem_of in Hin as [-> ?]. split; [|done]. right. by left.
  - assert (segment ∈ animateLine [coordA; coordB]
                        ("fallback-sea-" +:+ pretty i) ->
            (segmentId segment = "fallback-" +:+ pretty i \/
             segmentId segment = "to-" +:+ pretty i \/
             segmentId segment = "fallback-sea-" +:+ pretty i \/
             segmentId segment = "from-" +:+ pretty i \/
             exists j : nat, segmentId segment
                       = "cable-" +:+ pretty i +:+ "-" +:+ pretty j) /\
            2 <= length (segmentCoords segment)) as Hsea.
    { intros [-> ?]%animateLine_elem_of. split; [|done]. right. right. by left. }
    destruct (findCablePathDFS _ _ _ _) as [path|]; [|by apply Hsea].
    destruct (1 <? length path)%nat; [|by apply Hsea].
    apply cableLegs_elem_of in Hin as (j & edge & -> & Hlen & _).
    split; [|done]. do 4 right. by exists j.
  - apply animateLine_elem_of in Hin as [-> ?]. split; [|done].
    do 3 right. by left.
Qed.

(** X14: every segment that [animateTrace] draws is a line of at least two
    points. *)
Theorem animateTrace_segments_have_two_points haversineDistance
    (cables : list Cable) (landings : list Landing) (hops : list Hop)
    (segment : Segment) :
  segment ∈ animateTrace haversineDistance cables landings hops ->
  2 <= length (segmentCoords segment).
Proof.
  rewrite animateTrace_rounds.
  intros (i & a & b & _ & _ & Hin)%forPairs_elem_of.
  destruct (_ || _).
  - by apply directLine_elem_of in Hin as [_ ?].
  - by apply routePair_elem_of in Hin as [_ ?].
Qed.

Lemma animateTrace_segments_have_two_points_witness :
  2 <= length [(10.0001, 20.0001); (10.0001, 20.0001)]%float.
Proof.
  apply (animateTrace_segments_have_two_points flatDistance [cableAB]
           [alpha; beta] [hopAtAlpha; hopAtBeta]
           (mkSegment "to-0" [(10.0001, 20.0001); (10.0001, 20.0001)]%float)).
  vm_compute. left.
Defined.

(** *** One more hop *)

Lemma flat_map_ext_elem_of {A B : Type} (f g : A -> list B) (l : list A) :
  (forall x, x ∈ l -> f x = g x) -> flat_map f l = flat_map g l.
Proof.
  induction l as [|x l IH]; intros Hfg; [done|].
  simpl. rewrite (Hfg x) by (by left). f_equal.
  apply IH. intros y Hy. apply Hfg. by right.
Qed.

Lemma forPairs_snoc (hops : list Hop) (h : Hop) body :
  forPairs (hops ++ [h]) body
  = forPairs hops body
    ++ match last hops with
       | Some a => body (length hops - 1) a h
       | None => []
       end.
Proof.
  destruct hops as [|h0 hops0] using rev_ind; [done|]. clear IHhops0.
  rewrite last_snoc. unfold forPairs.
  rewrite !length_app. simpl.
  replace (length hops0 + 1 + 1 - 1) with (S (length hops0)) by lia.
  replace (length hops0 + 1 - 1) with (length hops0) by lia.
  rewrite seq_S, flat_map_app. simpl. rewrite app_nil_r. f_equal.
  - apply flat_map_ext_elem_of. intros i Hi%elem_of_seq.
    rewrite !(lookup_app_l (hops0 ++ [h0])) by (rewrite length_app; simpl; lia).
    done.
  - rewrite (lookup_app_l (hops0 ++ [h0])) by (rewrite length_app; simpl; lia).
    rewrite lookup_app_r by lia. rewrite Nat.sub_diag. simpl.
    rewrite lookup_app_r by (rewrite length_app; simpl; lia).
    rewrite length_app. simpl.
    by replace (length hops0 + 1 - (length hops0 + 1)) with 0 by lia.
Qed.

(** X15: hops arrive one at a time, and a hop more only adds to the route.
    With the same datasets, the segments for [hops ++ [h]] are the segments
    for [hops], unchanged, followed by the round of the pair made of the last
    hop [a] of [hops] and [h], at the index of [a]: nothing when the pair
    fails the guard [a.lat && a.lon && h.lat && h.lon] (or [hops] is empty),
    the direct line of the fall-back loop when a dataset is empty, and the
    output of the body of the main loop for that pair otherwise. *)
Theorem animateTrace_one_more_hop haversineDistance (cables : list Cable)
    (landings : list Landing) (hops : list Hop) (h : Hop) :
  animateTrace haversineDistance cables landings (hops ++ [h])
  = animateTrace haversineDistance cables landings hops
    ++ match last hops with
       | None => []
       | Some a =>
           if negb (pairHasCoordinates a h) then []
           else if (length cables =? 0)%nat || (length landings =? 0)%nat
           then animateLine [hopCoord a; hopCoord h]
                  ("direct-" +:+ pretty (length hops - 1))
           else routePair haversineDistance
                  (buildCableGraph haversineDistance cables landings).1
                  (buildCableGraph haversineDistance cables landings).2
                  (length hops - 1) a h
       end.
Proof.
  rewrite !animateTrace_rounds, forPairs_snoc. f_equal.
  destruct (last hops) as [a|]; [|done].
  destruct (pairHasCoordinates a h) eqn:Hguard; simpl.
  - destruct (_ || _); [|done]. unfold directLine. by rewrite Hguard.
  - destruct (_ || _).
    + by apply directLine_skips.
    + by apply routePair_skips.
Qed.

(** *** The rounds of the two loops *)



(** X17: in fall-back mode, with no cables or no landings, [animateTrace]
    draws exactly the direct lines of the pairs that pass the guard: the
    line ["direct-i"] between the hops at [i] and [i + 1], and nothing
    else. *)
Theorem animateTrace_fallback_lines haversineDistance (cables : list Cable)
    (landings : list Landing) (hops : list Hop) (segment : Segment) :
  cables = [] \/ landings = [] ->
  segment ∈ animateTrace haversineDistance cables landings hops <->
  exists i a b,
    hops !! i = Some a /\ hops !! (i + 1) = Some b /\
    pairHasCoordinates a b = true /\
    segment = mkSegment ("direct-" +:+ pretty i) [hopCoord a; hopCoord b].
Proof.
  intros Hempty. rewrite animateTrace_rounds.
  replace ((length cables =? 0)%nat || (length landings =? 0)%nat) with true
    by (destruct Hempty as [-> | ->]; [done|by rewrite orb_true_r]).
  split.
  - intros (i & a & b & Ha & Hb & Hin)%forPairs_elem_of.
    exists i, a, b. split; [done|]. split; [done|].
    unfold directLine in Hin. destruct (pairHasCoordinates a b).
    + by apply animateLine_elem_of in Hin as [-> _].
    + by apply elem_of_nil in Hin.
  - intros (i & a & b & Ha & Hb & Hguard & ->).
    apply (forPairs_round hops directLine i a b Ha Hb).
    rewrite directLine_draws by done. by left.
Qed.

Lemma animateTrace_fallback_lines_witness :
  mkSegment "direct-0" [(10.0001, 20.0001); (55.5, 21.25)]%float
    ∈ animateTrace flatDistance [] [alpha; beta]
        [hopAtAlpha; hopAtBeta; hopUnlocated].
Proof.
  apply (animateTrace_fallback_lines flatDistance [] [alpha; beta]
           [hopAtAlpha; hopAtBeta; hopUnlocated]); [by left|].
  exists 0, hopAtAlpha, hopAtBeta. by vm_compute.
Defined.

Section CableMode.

Variable haversineDistance : LatLon -> LatLon -> float.
Variables (cables : list Cable) (landings : list Landing).

Let graph := (buildCableGraph haversineDistance cables landings).1.
Let coordMap := (buildCableGraph haversineDistance cables landings).2.

Lemma built_coordMap_key_not_empty (k : string) (c : Coord) :
  coordMapGet k coordMap = Some c -> k <> "".
Proof.
  unfold coordMap. rewrite built_coordMap_get.
  destruct (last _) as [landing|] eqn:Hlast; [|done]. intros _.
  apply last_Some in Hlast as [l Hl].
  assert (landing ∈ landingsWithKey k landings) as Hin
    by (rewrite Hl; apply elem_of_app; right; by left).
  apply list_elem_of_filter in Hin as [<- _]. apply coordKey_not_empty.
Qed.

Lemma resolvedCoord_of_key (p : LatLon) (k : string) :
  (getClosestCoordKey haversineDistance coordMap p).1 = Some k ->
  exists c, coordMapGet k coordMap = Some c /\
    resolvedCoord coordMap (getClosestCoordKey haversineDistance coordMap p)
    = Some (k, c).
Proof.
  intros Hk.
  destruct (getClosestCoordKey_key_in_coordMap haversineDistance coordMap p k Hk)
    as [c Hin].
  apply coordMapGet_elem_of in Hin; [|apply built_coordMap_NoDup].
  exists c. split; [done|]. unfold resolvedCoord. rewrite Hk.
  rewrite decide_False by (by eapply built_coordMap_key_not_empty).
  by rewrite Hin.
Qed.

Lemma resolvedCoord_no_key (p : LatLon) :
  (getClosestCoordKey haversineDistance coordMap p).1 = None ->
  resolvedCoord coordMap (getClosestCoordKey haversineDistance coordMap p) = None.
Proof. intros Hk. unfold resolvedCoord. by rewrite Hk. Qed.

(** X18: the shape of a round of the main loop, for a pair that passes the
    guard and the datasets that [buildCableGraph] was given.  When the
    search for the closest landing gives no key for one of the hops, the
    round is the single line ["fallback-i"] between the hops.  Otherwise
    both keys have their coordinate in [coordMap], and the round is the line
    ["to-i"] from the first hop to its landing, then either one line per leg
    of the path found between the two keys or the single line
    ["fallback-sea-i"] between the two landings, then the line ["from-i"]
    from the second landing to the second hop. *)
Theorem routePair_round_shape (i : nat) (a b : Hop) :
  pairHasCoordinates a b = true ->
  match (getClosestCoordKey haversineDistance coordMap
           (mkLatLon (numberOf (hopLat a)) (numberOf (hopLon a)))).1,
        (getClosestCoordKey haversineDistance coordMap
           (mkLatLon (numberOf (hopLat b)) (numberOf (hopLon b)))).1 with
  | Some keyA, Some keyB =>
      exists coordA coordB middle,
        coordMapGet keyA coordMap = Some coordA /\
        coordMapGet keyB coordMap = Some coordB /\
        routePair haversineDistance graph coordMap i a b
        = mkSegment ("to-" +:+ pretty i) [hopCoord a; coordA]
          :: middle
          ++ [mkSegment ("from-" +:+ pretty i) [coordB; hopCoord b]] /\
        (middle = [mkSegment ("fallback-sea-" +:+ pretty i) [coordA; coordB]] \/
         exists path,
           findCablePathDFS graph keyA keyB ∅ = Some path /\
           1 < length path /\ middle = cableLegs graph i path)
  | _, _ =>
      routePair haversineDistance graph coordMap i a b
      = [mkSegment ("fallback-" +:+ pretty i) [hopCoord a; hopCoord b]]
  end.
Proof.
  intros Hguard. unfold routePair. rewrite Hguard. cbn [negb].
  destruct (getClosestCoordKey _ _ (mkLatLon (numberOf (hopLat a)) _)).1
    as [keyA|] eqn:HkA.
  - destruct (resolvedCoord_of_key _ keyA HkA) as (coordA & HgA & ->).
    destruct (getClosestCoordKey _ _ (mkLatLon (numberOf (hopLat b)) _)).1
      as [keyB|] eqn:HkB.
    + destruct (resolvedCoord_of_key _ keyB HkB) as (coordB & HgB & ->).
      exists coordA, coordB.
      destruct (findCablePathDFS graph keyA keyB ∅) as [path|] eqn:Hpath;
        [destruct (1 <? length path)%nat eqn:Hlen|].
      * exists (cableLegs graph i path). repeat split; try done.
        right. exists path. apply Nat.ltb_lt in Hlen. done.
      * eexists. repeat split; try done. by left.
      * eexists. repeat split; try done. by left.
    + by rewrite (resolvedCoord_no_key _ HkB).
  - by rewrite (resolvedCoord_no_key _ HkA).
Qed.

End CableMode.

Lemma routePair_round_shape_witness :
  exists coordA coordB middle,
    coordMapGet keyAlpha
      (buildCableGraph flatDistance [cableAB] [alpha; beta; gamma]).2
      = Some coordA /\
    coordMapGet keyGamma
      (buildCableGraph flatDistance [cableAB] [alpha; beta; gamma]).2
      = Some coordB /\
    routePair flatDistance
      (buildCableGraph flatDistance [cableAB] [alpha; beta; gamma]).1
      (buildCableGraph flatDistance [cableAB] [alpha; beta; gamma]).2
      0 hopAtAlpha hopNearGamma
    = mkSegment ("to-" +:+ pretty 0) [hopCoord hopAtAlpha; coordA]
      :: middle
      ++ [mkSegment ("from-" +:+ pretty 0) [coordB; hopCoord hopNearGamma]] /\
    (middle = [mkSegment ("fallback-sea-" +:+ pretty 0) [coordA; coordB]] \/
     exists path,
       findCablePathDFS
         (buildCableGraph flatDistance [cableAB] [alpha; beta; gamma]).1
         keyAlpha keyGamma ∅ = Some path /\
       1 < length path /\
       middle = cableLegs
                  (buildCableGraph flatDistance [cableAB] [alpha; beta; gamma]).1
                  0 path).
Proof.
  pose proof (routePair_round_shape flatDistance [cableAB] [alpha; beta; gamma]
                0 hopAtAlpha hopNearGamma ltac:(by vm_compute)) as Hshape.
  assert ((getClosestCoordKey flatDistance
             (buildCableGraph flatDistance [cableAB] [alpha; beta; gamma]).2
             (mkLatLon (numberOf (hopLat hopAtAlpha))
                (numberOf (hopLon hopAtAlpha)))).1 = Some keyAlpha) as HA
    by (by vm_compute).
  assert ((getClosestCoordKey flatDistance
             (buildCableGraph flatDistance [cableAB] [alpha; beta; gamma]).2
             (mkLatLon (numberOf (hopLat hopNearGamma))
                (numberOf (hopLon hopNearGamma)))).1 = Some keyGamma) as HG
    by (by vm_compute).
  rewrite HA, HG in Hshape. exact Hshape.
Defined.

(** X19: two landings under different keys, one cable that starts at the
    first and ends at the second, and two hops that sit on the landings and
    pass the guard.  When each landing is nearer to itself than the other
    landing is, [animateTrace] draws three segments: from the first hop to
    the first landing, the cable's own flattened coordinates, and from the
    second landing to the second hop. *)
Theorem animateTrace_cable_between_two_landings haversineDistance
    (landingA landingB : Landing) (cable : Cable) (a b : Hop) :
  inserted haversineDistance [landingA; landingB] cable
    (coordKey (landingCoordinates landingA))
    (coordKey (landingCoordinates landingB)) ->
  hopCoord a = landingCoordinates landingA ->
  hopCoord b = landingCoordinates landingB ->
  pairHasCoordinates a b = true ->
  PrimFloat.ltb
    (haversineDistance
       (mkLatLon (landingCoordinates landingA).2 (landingCoordinates landingA).1)
       (mkLatLon (landingCoordinates landingA).2 (landingCoordinates landingA).1))
    infinity = true ->
  PrimFloat.ltb
    (haversineDistance
       (mkLatLon (landingCoordinates landingA).2 (landingCoordinates landingA).1)
       (mkLatLon (landingCoordinates landingB).2 (landingCoordinates landingB).1))
    (haversineDistance
       (mkLatLon (landingCoordinates landingA).2 (landingCoordinates landingA).1)
       (mkLatLon (landingCoordinates landingA).2 (landingCoordinates landingA).1))
    = false ->
  PrimFloat.ltb
    (haversineDistance
       (mkLatLon (landingCoordinates landingB).2 (landingCoordinates landingB).1)
       (mkLatLon (landingCoordinates landingB).2 (landingCoordinates landingB).1))
    infinity = true ->
  PrimFloat.ltb
    (haversineDistance
       (mkLatLon (landingCoordinates landingB).2 (landingCoordinates landingB).1)
       (mkLatLon (landingCoordinates landingB).2 (landingCoordinates landingB).1))
    (haversineDistance
       (mkLatLon (landingCoordinates landingB).2 (landingCoordinates landingB).1)
       (mkLatLon (landingCoordinates landingA).2 (landingCoordinates landingA).1))
    = true ->
  animateTrace haversineDistance [cable] [landingA; landingB] [a; b]
  = [mkSegment "to-0" [hopCoord a; landingCoordinates landingA];
     mkSegment "cable-0-0" (cableCoordinates (cableGeometry cable));
     mkSegment "from-0" [landingCoordinates landingB; hopCoord b]].
Proof. apply animateTrace_two_landings. Qed.

Lemma animateTrace_cable_between_two_landings_witness :
  animateTrace flatDistance [cableAB] [alpha; beta] [hopAtAlpha; hopAtBeta]
  = [mkSegment "to-0" [hopCoord hopAtAlpha; landingCoordinates alpha];
     mkSegment "cable-0-0" (cableCoordinates (cableGeometry cableAB));
     mkSegment "from-0" [landingCoordinates beta; hopCoord hopAtBeta]].
Proof.
  apply (animateTrace_cable_between_two_landings flatDistance alpha beta
           cableAB hopAtAlpha hopAtBeta); try by vm_compute.
  exists (10.01, 20.01)%float, (55.4, 21.2)%float,
    (mkClosest keyAlpha (10.0001, 20.0001)%float "Alpha"),
    (mkClosest keyBeta (55.5, 21.25)%float "Beta").
  repeat split; by vm_compute.
Defined.

Lemma cableLegs_one_per_leg_witness :
  length (cableLegs
            (buildCableGraph flatDistance [cableAB; cableBG]
               [alpha; beta; gamma]).1 0 [keyAlpha; keyBeta; keyGamma])
  = length [keyAlpha; keyBeta; keyGamma] - 1.
Proof.
  apply (cableLegs_one_per_leg flatDistance [cableAB; cableBG]
           [alpha; beta; gamma] keyAlpha keyGamma).
  vm_compute. reflexivity.
Defined.

(** ** Layer ids: theorems *)

(** *** Decimal numerals *)

Lemma pretty_N_char_digit (x : N) : isDigit (pretty_N_char x) = true.
Proof. unfold pretty_N_char. by repeat case_match. Qed.

Lemma pretty_N_go_digits (x : N) (s : string) :
  digitsOnly s = true -> digitsOnly (pretty_N_go x s) = true.
Proof.
  revert s. induction (N.lt_wf_0 x) as [x _ IH]; intros s Hs.
  destruct (decide (x = 0)%N) as [->|Hpos]; [by rewrite pretty_N_go_0|].
  rewrite pretty_N_go_step by lia. apply IH.
  - apply N.div_lt; lia.
  - simpl. by rewrite pretty_N_char_digit.
Qed.

Lemma pretty_N_go_not_empty (x : N) (s : string) :
  s <> "" -> pretty_N_go x s <> "".
Proof.
  revert s. induction (N.lt_wf_0 x) as [x _ IH]; intros s Hs.
  destruct (decide (x = 0)%N) as [->|Hpos]; [by rewrite pretty_N_go_0|].
  rewrite pretty_N_go_step by lia. apply IH; [apply N.div_lt; lia|done].
Qed.

Lemma pretty_nat_digits (n : nat) :
  digitsOnly (pretty n) = true /\ pretty n <> "".
Proof.
  unfold pretty, pretty_nat, pretty, pretty_N.
  case_decide as Hzero; [done|]. split.
  - by apply pretty_N_go_digits.
  - rewrite pretty_N_go_step by lia. by apply pretty_N_go_not_empty.
Qed.

(** *** Strings *)

Lemma append_inj_l (p s t : string) : p +:+ s = p +:+ t -> s = t.
Proof. induction p as [|c p IH]; simpl; [done|]. intros [= ?]. by apply IH. Qed.

(** Two numerals followed by a dash agree when the whole strings agree. *)
Lemma digits_dash_inj (s1 s2 t1 t2 : string) :
  digitsOnly s1 = true -> digitsOnly s2 = true ->
  s1 +:+ "-" +:+ t1 = s2 +:+ "-" +:+ t2 -> s1 = s2 /\ t1 = t2.
Proof.
  revert s2. induction s1 as [|c1 s1 IH]; intros [|c2 s2]; simpl.
  - intros _ _ [= Heq]. by split.
  - intros _ [Hc _]%andb_prop [= Hchar _]. by rewrite <- Hchar in Hc.
  - intros [Hc _]%andb_prop _ [= Hchar _]. by rewrite Hchar in Hc.
  - intros [_ H1]%andb_prop [_ H2]%andb_prop [= Hchar Heq].
    destruct (IH s2 H1 H2 Heq) as [Hs Ht]. by rewrite Hchar, Hs.
Qed.

Lemma digits_not_letter (s t : string) :
  digitsOnly s = true -> s <> "s" +:+ t.
Proof. intros Hs ->. done. Qed.

(** *** The ids of a round *)

Lemma round_direct_inj (i i' : nat) :
  "direct-" +:+ pretty i = "direct-" +:+ pretty i' -> i = i'.
Proof. intros Heq%append_inj_l. by apply (inj pretty). Qed.

Lemma round_id_inj (i i' : nat) (id : string) :
  (id = "fallback-" +:+ pretty i \/ id = "to-" +:+ pretty i \/
   id = "fallback-sea-" +:+ pretty i \/ id = "from-" +:+ pretty i \/
   exists j : nat, id = "cable-" +:+ pretty i +:+ "-" +:+ pretty j) ->
  (id = "fallback-" +:+ pretty i' \/ id = "to-" +:+ pretty i' \/
   id = "fallback-sea-" +:+ pretty i' \/ id = "from-" +:+ pretty i' \/
   exists j : nat, id = "cable-" +:+ pretty i' +:+ "-" +:+ pretty j) ->
  i = i'.
Proof.
  destruct (pretty_nat_digits i) as [Hi _], (pretty_nat_digits i') as [Hi' _].
  intros [->|[->|[->|[->|[j ->]]]]] [Heq|[Heq|[Heq|[Heq|[j' Heq]]]]];
    try (simpl in Heq; discriminate Heq).
  - apply (append_inj_l "fallback-") in Heq. by apply (inj pretty).
  - apply (append_inj_l "fallback-") in Heq.
    by destruct (digits_not_letter _ _ Hi Heq).
  - apply (append_inj_l "to-") in Heq. by apply (inj pretty).
  - apply (append_inj_l "fallback-") in Heq. symmetry in Heq.
    by destruct (digits_not_letter _ _ Hi' Heq).
  - apply (append_inj_l "fallback-sea-") in Heq. by apply (inj pretty).
  - apply (append_inj_l "from-") in Heq. by apply (inj pretty).
  - apply (append_inj_l "cable-") in Heq.
    by apply digits_dash_inj in Heq as [?%(inj pretty) _].
Qed.

(** *** No id is drawn twice *)

Lemma NoDup_flat_map_index {A B : Type} (f : A -> list B) (l : list A) :
  NoDup l ->
  (forall x, x ∈ l -> NoDup (f x)) ->
  (forall x y b, x ∈ l -> y ∈ l -> b ∈ f x -> b ∈ f y -> x = y) ->
  NoDup (flat_map f l).
Proof.
  induction l as [|x l IH]; intros Hnd Heach Hapart; simpl; [constructor|].
  apply NoDup_cons in Hnd as [Hx Hnd].
  apply NoDup_app. split; [apply Heach; by left|]. split.
  - intros b Hb Hin%list_elem_of_In%in_flat_map.
    destruct Hin as (y & Hy%list_elem_of_In & Hby%list_elem_of_In).
    apply Hx. rewrite (Hapart x y b); [done|by left|by right|done|done].
  - apply IH; [done|intros y Hy; apply Heach; by right|].
    intros y z b Hy Hz. apply Hapart; by right.
Qed.

Lemma fmap_flat_map {A B C : Type} (g : B -> C) (f : A -> list B) (l : list A) :
  g <$> flat_map f l = flat_map (fun x => g <$> f x) l.
Proof.
  induction l as [|x l IH]; simpl; [done|]. by rewrite fmap_app, IH.
Qed.

Lemma animateLine_ids (coords : list Coord) (id : string) :
  segmentId <$> animateLine coords id = []
  \/ segmentId <$> animateLine coords id = [id].
Proof. unfold animateLine. destruct (_ <? _)%nat; [by left|by right]. Qed.

Lemma animateLine_ids_NoDup (coords : list Coord) (id : string) :
  NoDup (segmentId <$> animateLine coords id).
Proof.
  destruct (animateLine_ids coords id) as [-> | ->];
    [constructor|apply NoDup_singleton].
Qed.

Lemma animateLine_id_elem_of (coords : list Coord) (id x : string) :
  x ∈ segmentId <$> animateLine coords id -> x = id.
Proof.
  destruct (animateLine_ids coords id) as [-> | ->].
  - by intros Hin%elem_of_nil.
  - by intros ->%list_elem_of_singleton.
Qed.

Lemma cableLegs_id_elem_of (graph : Graph) (i : nat) (path : list string)
    (x : string) :
  x ∈ segmentId <$> cableLegs graph i path ->
  exists j : nat, x = "cable-" +:+ pretty i +:+ "-" +:+ pretty j.
Proof.
  intros (segment & -> & Hin)%list_elem_of_fmap.
  apply cableLegs_elem_of in Hin as (j & edge & -> & _). by exists j.
Qed.

Lemma cableLegs_ids_NoDup (graph : Graph) (i : nat) (path : list string) :
  NoDup (segmentId <$> cableLegs graph i path).
Proof.
  unfold cableLegs. rewrite fmap_flat_map.
  assert (forall j x,
            x ∈ segmentId <$>
                  match path !! j, path !! (j + 1) with
                  | Some from, Some next =>
                      match graph !! from
                            ≫= List.find (fun e => bool_decide (to e = next)) with
                      | Some edge =>
                          animateLine (geometry edge)
                            ("cable-" +:+ pretty i +:+ "-" +:+ pretty j)
                      | None => []
                      end
                  | _, _ => []
                  end ->
            x = "cable-" +:+ pretty i +:+ "-" +:+ pretty j) as Hid.
  { intros j x. destruct (path !! j); [|by intros Hin%elem_of_nil].
    destruct (path !! (j + 1)); [|by intros Hin%elem_of_nil].
    destruct (_ ≫= _); [|by intros Hin%elem_of_nil].
    apply animateLine_id_elem_of. }
  apply NoDup_flat_map_index.
  - apply NoDup_seq.
  - intros j _. destruct (path !! j); [|constructor].
    destruct (path !! (j + 1)); [|constructor].
    destruct (_ ≫= _); [|constructor]. apply animateLine_ids_NoDup.
  - intros j j' x _ _ Hj%Hid Hj'%Hid. rewrite Hj in Hj'.
    apply (append_inj_l "cable-") in Hj'.
    destruct (pretty_nat_digits i) as [Hi _].
    apply digits_dash_inj in Hj' as [_ Heq]; [|done|done].
    by apply (inj pretty).
Qed.

Lemma routePair_ids_NoDup haversineDistance (graph : Graph)
    (coordMap : CoordMap) (i : nat) (a b : Hop) :
  NoDup (segmentId <$> routePair haversineDistance graph coordMap i a b).
Proof.
  unfold routePair. destruct (negb _); [constructor|].
  destruct (resolvedCoord _ _) as [[keyA coordA]|];
    [|apply animateLine_ids_NoDup].
  destruct (resolvedCoord _ _) as [[keyB coordB]|];
    [|apply animateLine_ids_NoDup].
  rewrite !fmap_app.
  assert (forall x,
            x ∈ segmentId <$>
                  match findCablePathDFS graph keyA keyB ∅ with
                  | Some path =>
                      if (1 <? length path)%nat then cableLegs graph i path
                      else animateLine [coordA; coordB]
                             ("fallback-sea-" +:+ pretty i)
                  | None =>
                      animateLine [coordA; coordB]
                        ("fallback-sea-" +:+ pretty i)
                  end ->
            x = "fallback-sea-" +:+ pretty i \/
            exists j : nat, x = "cable-" +:+ pretty i +:+ "-" +:+ pretty j)
    as Hmiddle.
  { intros x. destruct (findCablePathDFS _ _ _ _) as [path|];
      [destruct (1 <? length path)%nat|].
    - intros Hx%cableLegs_id_elem_of. by right.
    - intros Hx%animateLine_id_elem_of. by left.
    - intros Hx%animateLine_id_elem_of. by left. }
  apply NoDup_app. split; [apply animateLine_ids_NoDup|]. split.
  - intros x ->%animateLine_id_elem_of
      [[Hx|[j Hx]]%Hmiddle | Hx%animateLine_id_elem_of]%elem_of_app;
      simpl in Hx; discriminate Hx.
  - apply NoDup_app. split; [|split; [|apply animateLine_ids_NoDup]].
    + destruct (findCablePathDFS _ _ _ _) as [path|];
        [destruct (1 <? length path)%nat|];
        [apply cableLegs_ids_NoDup|apply animateLine_ids_NoDup..].
    + intros x [Hx|[j Hx]]%Hmiddle ->%animateLine_id_elem_of;
        simpl in Hx; discriminate Hx.
Qed.

Lemma directLine_ids_NoDup (i : nat) (a b : Hop) :
  NoDup (segmentId <$> directLine i a b).
Proof.
  unfold directLine. destruct (pairHasCoordinates a b); [|constructor].
  apply animateLine_ids_NoDup.
Qed.

Lemma animateTrace_ids_NoDup haversineDistance (cables : list Cable)
    (landings : list Landing) (hops : list Hop) :
  NoDup (segmentId <$> animateTrace haversineDistance cables landings hops).
Proof.
  rewrite animateTrace_rounds. unfold forPairs. rewrite fmap_flat_map.
  destruct ((length cables =? 0)%nat || (length landings =? 0)%nat).
  - apply NoDup_flat_map_index; [apply NoDup_seq| |].
    + intros i _. destruct (hops !! i); [|constructor].
      destruct (hops !! (i + 1)); [|constructor]. apply directLine_ids_NoDup.
    + intros i i' x _ _ Hi Hi'.
      assert (forall k, x ∈ segmentId <$>
                              match hops !! k, hops !! (k + 1) with
                              | Some a, Some b => directLine k a b
                              | _, _ => []
                              end ->
                        x = "direct-" +:+ pretty k) as Hid.
      { intros k (segment & -> & Hin)%list_elem_of_fmap.
        destruct (hops !! k); [|by apply elem_of_nil in Hin].
        destruct (hops !! (k + 1)); [|by apply elem_of_nil in Hin].
        by apply directLine_elem_of in Hin as [? _]. }
      apply Hid in Hi, Hi'. rewrite Hi in Hi'. by apply round_direct_inj.
  - apply NoDup_flat_map_index; [apply NoDup_seq| |].
    + intros i _. destruct (hops !! i); [|constructor].
      destruct (hops !! (i + 1)); [|constructor]. apply routePair_ids_NoDup.
    + intros i i' x _ _ Hi Hi'.
      assert (forall k,
                x ∈ segmentId <$>
                      match hops !! k, hops !! (k + 1) with
                      | Some a, Some b =>
                          routePair haversineDistance
                            (buildCableGraph haversineDistance cables landings).1
                            (buildCableGraph haversineDistance cables landings).2
                            k a b
                      | _, _ => []
                      end ->
                x = "fallback-" +:+ pretty k \/ x = "to-" +:+ pretty k \/
                x = "fallback-sea-" +:+ pretty k \/ x = "from-" +:+ pretty k \/
                exists j : nat, x = "cable-" +:+ pretty k +:+ "-" +:+ pretty j)
        as Hid.
      { intros k (segment & -> & Hin)%list_elem_of_fmap.
        destruct (hops !! k); [|by apply elem_of_nil in Hin].
        destruct (hops !! (k + 1)); [|by apply elem_of_nil in Hin].
        by apply routePair_elem_of in Hin as [? _]. }
      apply Hid in Hi, Hi'. by eapply round_id_inj.
Qed.

(** X20: within one run of [animateTrace] no layer id is used twice: the
    ids of its segments are pairwise different, so no segment of a run takes
    the place of another segment of the same run. *)
Theorem animateTrace_ids_distinct haversineDistance (cables : list Cable)
    (landings : list Landing) (hops : list Hop) :
  NoDup (segmentId <$> animateTrace haversineDistance cables landings hops).
Proof. apply animateTrace_ids_NoDup. Qed.

(** ** Playback on the map: further theorems *)

Lemma lastDrawn_NoDup (segments : list Segment) (segment : Segment) :
  NoDup (segmentId <$> segments) -> segment ∈ segments ->
  lastDrawn (segmentId segment) segments = Some (segmentCoords segment).
Proof.
  induction segments as [|first rest IH]; intros Hnd Hin.
  - by apply elem_of_nil in Hin.
  - rewrite fmap_cons in Hnd. apply NoDup_cons in Hnd as [Hfirst Hnd].
    simpl. apply elem_of_cons in Hin as [->|Hin].
    + rewrite lastDrawn_None by done. by rewrite decide_True.
    + by rewrite IH.
Qed.

Lemma surface_eq (map map' : MapSurface) :
  sources map = sources map' -> layers map = layers map' -> map = map'.
Proof. destruct map, map'. simpl. by intros -> ->. Qed.

(** X21: one run of [animateTrace], played on any map, leaves each of its
    segments on the map: the layer of the segment's id is there and its
    source holds the segment's own line.  Sources and layers under other ids
    are as they were before the run. *)
Theorem animateTrace_leaves_its_segments haversineDistance
    (cables : list Cable) (landings : list Landing) (hops : list Hop)
    (map : MapSurface) :
  (forall segment,
      segment ∈ animateTrace haversineDistance cables landings hops ->
      sources (play (animateTrace haversineDistance cables landings hops) map)
        !! segmentId segment = Some (segmentCoords segment) /\
      layers (play (animateTrace haversineDistance cables landings hops) map)
        !! segmentId segment = Some (segmentId segment)) /\
  (forall id,
      id ∉ segmentId <$> animateTrace haversineDistance cables landings hops ->
      sources (play (animateTrace haversineDistance cables landings hops) map)
        !! id = sources map !! id /\
      layers (play (animateTrace haversineDistance cables landings hops) map)
        !! id = layers map !! id).
Proof.
  split.
  - intros segment Hin. rewrite play_sources, play_layers.
    by rewrite (lastDrawn_NoDup _ segment
                  (animateTrace_ids_NoDup haversineDistance cables landings
                     hops) Hin).
  - intros id Hid. rewrite play_sources, play_layers.
    by rewrite (lastDrawn_None id _ Hid).
Qed.

(** X22: playing the same sequence of calls of [animateLine] a second time
    changes nothing: a run repeated with the same inputs leaves the map as
    the first run left it, with no layer or source added. *)
Theorem play_twice (segments : list Segment) (map : MapSurface) :
  play segments (play segments map) = play segments map.
Proof.
  apply surface_eq; apply map_eq; intros id.
  - rewrite play_sources. destruct (lastDrawn id segments) eqn:Hlast; [|done].
    by rewrite play_sources, Hlast.
  - rewrite play_layers. destruct (lastDrawn id segments) eqn:Hlast; [|done].
    by rewrite play_layers, Hlast.
Qed.

(** ** Coordinate keys: further theorems *)

(** *** Reading a numeral back *)

Lemma decimalFrom_shift (acc : N) (s : string) :
  decimalFrom acc s = (acc * 10 ^ N.of_nat (String.length s) + decimalValue s)%N.
Proof.
  unfold decimalValue. revert acc. induction s as [|c s IH]; intros acc.
  - simpl. lia.
  - cbn [decimalFrom String.length]. rewrite IH, (IH (10 * 0 + _)%N).
    rewrite Nat2N.inj_succ, N.pow_succ_r'. lia.
Qed.

Lemma pretty_N_char_value (x : N) :
  (x < 10)%N -> N.of_nat (nat_of_ascii (pretty_N_char x) - 48) = x.
Proof.
  intros Hx.
  assert (x = 0 \/ x = 1 \/ x = 2 \/ x = 3 \/ x = 4 \/ x = 5 \/ x = 6 \/ x = 7
          \/ x = 8 \/ x = 9)%N as Hcases by lia.
  by repeat destruct Hcases as [->|Hcases]; [..|subst x].
Qed.

Lemma pretty_N_go_value (x : N) (s : string) :
  decimalValue (pretty_N_go x s)
  = (x * 10 ^ N.of_nat (String.length s) + decimalValue s)%N.
Proof.
  revert s. induction (N.lt_wf_0 x) as [x _ IH]; intros s.
  destruct (decide (x = 0)%N) as [->|Hpos]; [by rewrite pretty_N_go_0|].
  rewrite pretty_N_go_step by lia. rewrite IH by (apply N.div_lt; lia).
  unfold decimalValue at 1. cbn [decimalFrom String.length].
  rewrite decimalFrom_shift, pretty_N_char_value by (apply N.mod_lt; lia).
  rewrite Nat2N.inj_succ, N.pow_succ_r'.
  pose proof (N.div_mod x 10 ltac:(lia)). nia.
Qed.

Lemma pretty_N_value (x : N) : decimalValue (pretty x) = x.
Proof.
  unfold pretty, pretty_N. case_decide as Hzero; [by subst|].
  rewrite pretty_N_go_value. simpl. unfold decimalValue. simpl. lia.
Qed.

Lemma pretty_N_digits (x : N) : digitsOnly (pretty x) = true /\ pretty x <> "".
Proof.
  unfold pretty, pretty_N. case_decide as Hzero; [done|]. split.
  - by apply pretty_N_go_digits.
  - rewrite pretty_N_go_step by lia. by apply pretty_N_go_not_empty.
Qed.

Lemma zeros_digits (k : nat) :
  digitsOnly (JsNumber.zeros k) = true /\ decimalValue (JsNumber.zeros k) = 0%N.
Proof.
  induction k as [|k [IHd IHv]]; [done|]. split; [done|].
  unfold decimalValue in *. simpl. exact IHv.
Qed.

Lemma zeros_length (k : nat) : String.length (JsNumber.zeros k) = k.
Proof. induction k as [|k IH]; simpl; [done|]. by f_equal. Qed.

(** *** Strings *)

Lemma string_app_length (s t : string) :
  String.length (s +:+ t) = String.length s + String.length t.
Proof. induction s as [|c s IH]; simpl; [done|]. by f_equal. Qed.

Lemma digitsOnly_app (s t : string) :
  digitsOnly (s +:+ t) = digitsOnly s && digitsOnly t.
Proof.
  induction s as [|c s IH]; simpl; [done|]. by rewrite IH, andb_assoc.
Qed.

Lemma decimalValue_app (s t : string) :
  decimalValue (s +:+ t) = decimalFrom (decimalValue s) t.
Proof.
  unfold decimalValue. generalize 0%N.
  induction s as [|c s IH]; intros acc; simpl; [done|]. apply IH.
Qed.

Lemma substring_all (s : string) : String.substring 0 (String.length s) s = s.
Proof. induction s as [|c s IH]; simpl; [done|]. by f_equal. Qed.

Lemma substring_split (s : string) (n : nat) :
  n <= String.length s ->
  String.substring 0 n s +:+ String.substring n (String.length s - n) s = s.
Proof.
  revert n. induction s as [|c s IH]; intros [|n] Hn; simpl in Hn; try lia.
  - done.
  - exact (f_equal (String c) (substring_all s)).
  - exact (f_equal (String c) (IH n ltac:(lia))).
Qed.

Lemma substring_head (s : string) (n : nat) :
  0 < n -> s <> "" -> String.substring 0 n s <> "".
Proof. intros Hn Hs. destruct s as [|c s]; [done|]. by destruct n; [lia|]. Qed.

Lemma hasChar_of_digits (c : ascii) (s : string) :
  isDigit c = false -> digitsOnly s = true -> hasChar c s = false.
Proof.
  intros Hc. induction s as [|c' s IH]; simpl; [done|].
  intros [Hc' Hs]%andb_prop. rewrite IH by done.
  rewrite bool_decide_eq_false_2; [done|]. intros ->. by rewrite Hc in Hc'.
Qed.

Lemma hasChar_app (c : ascii) (s t : string) :
  hasChar c (s +:+ t) = hasChar c s || hasChar c t.
Proof.
  induction s as [|c' s IH]; simpl; [done|]. by rewrite IH, orb_assoc.
Qed.

(** A string is cut in one way only at a character that does not occur
    before the cut. *)
Lemma separator_inj (c : ascii) (s1 s2 t1 t2 : string) :
  hasChar c s1 = false -> hasChar c s2 = false ->
  s1 +:+ String c t1 = s2 +:+ String c t2 -> s1 = s2 /\ t1 = t2.
Proof.
  revert s2. induction s1 as [|c1 s1 IH]; intros [|c2 s2]; simpl.
  - intros _ _ [= Heq]. by split.
  - intros _ [Hc _]%orb_false_elim [= Hchar _].
    by rewrite Hchar, bool_decide_eq_true_2 in Hc.
  - intros [Hc _]%orb_false_elim _ [= Hchar _].
    by rewrite Hchar, bool_decide_eq_true_2 in Hc.
  - intros [_ H1]%orb_false_elim [_ H2]%orb_false_elim [= Hchar Heq].
    destruct (IH s2 H1 H2 Heq) as [Hs Ht]. by rewrite Hchar, Hs.
Qed.

(** *** The printed form of a rounded number *)

Lemma nearest_nonneg (f : nat) (m : positive) (e : Z) :
  (0 <= JsNumber.nearest f m e)%Z.
Proof.
  unfold JsNumber.nearest. destruct (0 <=? e)%Z eqn:He.
  - apply Z.leb_le in He.
    pose proof (Z.pow_nonneg 2 e ltac:(lia)).
    pose proof (Z.pow_nonneg 10 (Z.of_nat f) ltac:(lia)). nia.
  - apply Z.leb_gt in He. apply Z.div_pos.
    + pose proof (Z.pow_nonneg 2 (- e) ltac:(lia)).
      pose proof (Z.pow_nonneg 10 (Z.of_nat f) ltac:(lia)). nia.
    + apply Z.pow_pos_nonneg; lia.
Qed.

(** The digits of [n] with the point set before the last [f] of them: a
    numeral that is not empty, a point, and a numeral; the two numerals
    together write [n]. *)
Lemma fixedDigits_shape (f : nat) (n : Z) :
  0 < f ->
  exists a b,
    JsNumber.fixedDigits f n = a +:+ String "." b /\
    digitsOnly a = true /\ a <> "" /\ digitsOnly b = true /\
    decimalValue (a +:+ b) = Z.to_N n.
Proof.
  intros Hf. unfold JsNumber.fixedDigits.
  destruct (pretty_N_digits (Z.to_N n)) as [Hdigits Hne].
  set (m := pretty (Z.to_N n)) in *.
  set (m' := if (String.length m <=? f)%nat
             then JsNumber.zeros (f + 1 - String.length m) +:+ m else m).
  assert (digitsOnly m' = true /\ f + 1 <= String.length m' /\
          decimalValue m' = Z.to_N n) as (Hd & Hlen & Hval).
  { unfold m'. destruct (Nat.leb_spec (String.length m) f).
    - destruct (zeros_digits (f + 1 - String.length m)) as [Hzd Hzv].
      rewrite digitsOnly_app, Hzd, Hdigits, string_app_length, zeros_length.
      rewrite decimalValue_app, Hzv. fold (decimalValue m).
      split; [done|]. split; [lia|apply pretty_N_value].
    - split; [done|]. split; [lia|apply pretty_N_value]. }
  clearbody m'. destruct f as [|f]; [lia|].
  set (k := String.length m') in *.
  exists (String.substring 0 (k - S f) m'),
    (String.substring (k - S f) (S f) m').
  assert (String.substring 0 (k - S f) m'
          +:+ String.substring (k - S f) (S f) m' = m') as Hsplit.
  { pose proof (substring_split m' (k - S f) ltac:(unfold k; lia)) as Hs.
    by replace (String.length m' - (k - S f)) with (S f) in Hs
      by (unfold k; lia). }
  rewrite <- Hsplit, digitsOnly_app in Hd. apply andb_prop in Hd as [Ha Hb].
  split; [done|]. split; [done|]. split; [|split; [done|by rewrite Hsplit]].
  apply substring_head; [lia|]. intros Hempty. unfold k in Hlen.
  rewrite Hempty in Hlen. simpl in Hlen. lia.
Qed.

Lemma digits_start (a t t' : string) :
  digitsOnly a = true -> a <> "" -> a +:+ t <> String "-" t'.
Proof. destruct a as [|c a]; [done|]. intros [Hc _]%andb_prop _ [= -> _]. done. Qed.

Lemma fixedDigits_inj (f : nat) (n n' : Z) :
  0 < f -> (0 <= n)%Z -> (0 <= n')%Z ->
  JsNumber.fixedDigits f n = JsNumber.fixedDigits f n' -> n = n'.
Proof.
  intros Hf Hn Hn' Heq.
  destruct (fixedDigits_shape f n Hf) as (a & b & Hab & Ha & _ & _ & Hv).
  destruct (fixedDigits_shape f n' Hf) as (a' & b' & Hab' & Ha' & _ & _ & Hv').
  rewrite Hab, Hab' in Heq.
  apply separator_inj in Heq as [-> ->];
    [|by apply hasChar_of_digits..].
  rewrite Hv in Hv'. lia.
Qed.

Lemma fixedDigits_not_negative (f : nat) (n : Z) (t : string) :
  0 < f -> JsNumber.fixedDigits f n <> String "-" t.
Proof.
  intros Hf. destruct (fixedDigits_shape f n Hf) as (a & b & -> & Ha & Hne & _).
  by apply digits_start.
Qed.

Lemma fixedDigits_no_comma (f : nat) (n : Z) :
  0 < f -> hasChar "," (JsNumber.fixedDigits f n) = false.
Proof.
  intros Hf. destruct (fixedDigits_shape f n Hf) as (a & b & -> & Ha & _ & Hb & _).
  rewrite hasChar_app. simpl.
  by rewrite !hasChar_of_digits.
Qed.

(** What [toFixed] prints for a number that rounds to [v]: a minus sign
    when the number is negative, then the digits of [|v|]. *)
Lemma toFixed_of_rounded (f : nat) (x : float) (v : Z) :
  JsNumber.roundedTo f x = Some v ->
  JsNumber.toFixed f x
  = (if JsNumber.isNegative x then "-" else "")
    +:+ JsNumber.fixedDigits f (Z.abs v) /\
  v = (if JsNumber.isNegative x then - Z.abs v else Z.abs v)%Z.
Proof.
  unfold JsNumber.roundedTo, JsNumber.toFixed, JsNumber.isNegative.
  destruct (Prim2SF x) as [s|s| |s m e]; try done.
  - by intros [= <-].
  - pose proof (nearest_nonneg f m e).
    intros [= <-]. destruct s.
    + rewrite Z.abs_opp, Z.abs_eq by done. done.
    + rewrite Z.abs_eq by done. done.
Qed.

Lemma toFixed_inj_rounded (f : nat) (x y : float) (v w : Z) :
  0 < f ->
  JsNumber.roundedTo f x = Some v -> JsNumber.roundedTo f y = Some w ->
  JsNumber.toFixed f x = JsNumber.toFixed f y ->
  v = w /\ JsNumber.isNegative x = JsNumber.isNegative y.
Proof.
  intros Hf [Hx Hv]%toFixed_of_rounded [Hy Hw]%toFixed_of_rounded Heq.
  rewrite Hx, Hy in Heq.
  destruct (JsNumber.isNegative x), (JsNumber.isNegative y).
  - apply (append_inj_l "-") in Heq.
    apply fixedDigits_inj in Heq; [|done|lia..]. split; [lia|done].
  - symmetry in Heq.
    by destruct (fixedDigits_not_negative f (Z.abs w) _ Hf Heq).
  - by destruct (fixedDigits_not_negative f (Z.abs v) _ Hf Heq).
  - apply fixedDigits_inj in Heq; [|done|lia..]. split; [lia|done].
Qed.

Lemma toFixed_no_comma (f : nat) (x : float) (v : Z) :
  0 < f -> JsNumber.roundedTo f x = Some v ->
  hasChar "," (JsNumber.toFixed f x) = false.
Proof.
  intros Hf [-> _]%toFixed_of_rounded. rewrite hasChar_app.
  rewrite fixedDigits_no_comma by done. by destruct (JsNumber.isNegative x).
Qed.

(** X23: keys keep apart what rounds apart.  When two coordinates with
    finite components have the same key, their longitudes round to the same
    value at three decimal places and are both negative or both not, and so
    do their latitudes. *)
Theorem coordKey_separates_roundings (a b : Coord) (alon alat blon blat : Z) :
  JsNumber.roundedTo 3 a.1 = Some alon ->
  JsNumber.roundedTo 3 a.2 = Some alat ->
  JsNumber.roundedTo 3 b.1 = Some blon ->
  JsNumber.roundedTo 3 b.2 = Some blat ->
  coordKey a = coordKey b ->
  alon = blon /\ alat = blat /\
  JsNumber.isNegative a.1 = JsNumber.isNegative b.1 /\
  JsNumber.isNegative a.2 = JsNumber.isNegative b.2.
Proof.
  intros Halon Halat Hblon Hblat Hkey. unfold coordKey in Hkey.
  apply separator_inj in Hkey as [Hlon Hlat];
    [|eapply toFixed_no_comma; [lia|done]..].
  destruct (toFixed_inj_rounded 3 a.1 b.1 alon blon ltac:(lia) Halon Hblon Hlon)
    as [? ?].
  destruct (toFixed_inj_rounded 3 a.2 b.2 alat blat ltac:(lia) Halat Hblat Hlat)
    as [? ?].
  done.
Qed.

Lemma coordKey_separates_roundings_witness :
  10000%Z = 10000%Z /\ 20000%Z = 20000%Z /\
  JsNumber.isNegative 10.0001 = JsNumber.isNegative 10.00013 /\
  JsNumber.isNegative 20.0001 = JsNumber.isNegative 20.00009.
Proof.
  apply (coordKey_separates_roundings (10.0001, 20.0001)%float
           (10.00013, 20.00009)%float); by vm_compute.
Defined.

(** ** The frames of a line: theorems *)

Example animateFrames_from_39 : animateFrames 1 39 = Some [(2, 4)].
Proof. reflexivity. Qed.

Lemma animateFrames_run (fuel offset : nat) :
  offset < 40 -> 40 - offset <= fuel ->
  animateFrames fuel offset
  = Some ((fun k => (2, 4 + k mod 20)) <$> seq (offset + 1) (40 - offset)).
Proof.
  revert offset. induction fuel as [|fuel IH]; intros offset Hlt Hfuel; [lia|].
  cbn [animateFrames].
  replace (40 - offset) with (S (39 - offset)) by lia. cbn [seq fmap list_fmap].
  destruct (Nat.ltb_spec (offset + 1) 40) as [Hmore|Hlast].
  - rewrite IH by lia. cbn [fmap option_fmap option_map]. do 2 f_equal.
    replace (40 - (offset + 1)) with (39 - offset) by lia.
    by replace (offset + 1 + 1) with (S (offset + 1)) by lia.
  - by replace (39 - offset) with 0 by lia.
Qed.

(** X24: the animation of a line always ends.  Started as [animateLine]
    starts it, with [offset = 0], [animate] runs for exactly 40 frames and
    then resolves the promise; the frame [k] sets the dash array
    [[2, 4 + (k % 20)]], whose second entry stays between 4 and 23. *)
Theorem animateFrames_forty (fuel : nat) :
  40 <= fuel ->
  exists frames,
    animateFrames fuel 0 = Some frames /\
    length frames = 40 /\
    (forall k, k < 40 -> frames !! k = Some (2, 4 + (k + 1) mod 20)) /\
    (forall dash, dash ∈ frames -> dash.1 = 2 /\ 4 <= dash.2 <= 23).
Proof.
  intros Hfuel. eexists. split; [by apply animateFrames_run; lia|].
  split; [by rewrite length_fmap, length_seq|]. split.
  - intros k Hk. rewrite list_lookup_fmap, lookup_seq_lt by lia.
    cbn [fmap option_fmap option_map]. do 4 f_equal. lia.
  - intros dash (k & -> & _)%list_elem_of_fmap. simpl. split; [done|].
    pose proof (Nat.mod_upper_bound k 20 ltac:(lia)). lia.
Qed.

Lemma animateFrames_forty_witness :
  exists frames,
    animateFrames 40 0 = Some frames /\
    length frames = 40 /\
    (forall k, k < 40 -> frames !! k = Some (2, 4 + (k + 1) mod 20)) /\
    (forall dash, dash ∈ frames -> dash.1 = 2 /\ 4 <= dash.2 <= 23).
Proof. apply (animateFrames_forty 40). lia. Defined.
